(** * Battle-royale extension: the standalone round-logic service

    A shallow embedding of [extensions/battleroyale/standalone.mjs]
    (class [Standalone]) and the properties of its arena shrinker, bullet
    simulator, cooldown gate and hazard reactor.

    Conventions of the embedding:
    - JavaScript numbers that the service computes with are cell
      coordinates, sizes and counters.  Sizes and counters are integers
      and are modelled by [Z] (ids handed out by counters that start at 0
      by [nat]).  A coordinate is an integer or [NaN] ([num]): the
      service adds to coordinates what it finds in [Facing2Direction],
      which may be [undefined].
    - The fields of [this] live in the record [World], together with the
      pending timers of the host ([setTimeout]/[setInterval]) and the log
      of calls made to the collaborators behind [this.helper].
      [this.obstaclesOfMaps] is assigned once and never read; it is left
      out.
    - The collaborators are not part of the module.  What the service
      reads from them when a handler runs is the record [Env]: the
      tracked players and the answers of [gameMap.getCell].  What it
      tells them is the log.
    - A handler is a computation in the monad [M]: it threads the world
      and may throw; the world reached at a throw is kept, as in
      JavaScript.
    - Handlers are run to completion: the awaited broadcasts are logged
      calls that resolve before anything else is scheduled. *)

From Stdlib Require Import ZArith Lia.
From stdpp Require Import base strings list gmap.

Local Open Scope Z_scope.

(** ** JavaScript numbers *)

(** Numbers that may be missing: [None] stands for [NaN], and for
    [undefined] where a field is absent; arithmetic on it gives [NaN]
    and every comparison with it is false. *)
Definition num := option Z.

Definition js_add (a b : num) : num :=
  match a, b with Some a, Some b => Some (a + b) | _, _ => None end.
Definition js_sub (a b : num) : num :=
  match a, b with Some a, Some b => Some (a - b) | _, _ => None end.
(** [Math.floor(a/2)] *)
Definition js_floor_half (a : num) : num :=
  match a with Some a => Some (a / 2) | None => None end.
(** [Math.min(a, b)]: [NaN] if either is. *)
Definition js_min (a b : num) : num :=
  match a, b with Some a, Some b => Some (Z.min a b) | _, _ => None end.
(** [a === b] on numbers: [NaN] is equal to nothing. *)
Definition js_strict_eq (a b : num) : bool :=
  match a, b with Some a, Some b => a =? b | _, _ => false end.
(** [a == b] on numbers is [a === b]. *)
Definition js_eq (a b : num) : bool := js_strict_eq a b.
(** [a <= b] and [a < b] *)
Definition js_le (a b : num) : bool :=
  match a, b with Some a, Some b => a <=? b | _, _ => false end.
Definition js_lt (a b : num) : bool :=
  match a, b with Some a, Some b => a <? b | _, _ => false end.

(** ** Constants of the module *)

Definition BULLET_SPEED : N := 100%N.
Definition BULLET_LIFE : Z := 5.
Definition MAP_UPDATE_PERIOD : N := 20000%N.

(** What a property of the object [Facing2Direction] holds: one of the
    arrays of the literal, or a member that the literal inherits from
    [Object.prototype] (a function, or for [__proto__] the prototype
    itself). *)
Inductive Direction :=
| Array (d0 d1 : Z)
| Inherited.

(** [d[i]] read as an operand of [+=]: an array has the elements 0 and
    1; every other read gives [undefined], which adds as [NaN]. *)
Definition index (d : Direction) (i : nat) : num :=
  match d, i with
  | Array d0 _, 0%nat => Some d0
  | Array _ d1, 1%nat => Some d1
  | _, _ => None
  end.

(** The names every object literal finds on [Object.prototype]. *)
Definition Object_prototype : list string :=
  [ "constructor"; "__proto__"; "hasOwnProperty"; "isPrototypeOf";
    "propertyIsEnumerable"; "toLocaleString"; "toString"; "valueOf";
    "__defineGetter__"; "__defineSetter__"; "__lookupGetter__";
    "__lookupSetter__" ].

(** [Facing2Direction[facing]]: the four own properties of the literal,
    then the inherited ones; [None] is [undefined]. *)
Definition Facing2Direction (facing : string) : option Direction :=
  if String.eqb facing "U" then Some (Array 0 1)
  else if String.eqb facing "D" then Some (Array 0 (-1))
  else if String.eqb facing "R" then Some (Array 1 0)
  else if String.eqb facing "L" then Some (Array (-1) 0)
  else if bool_decide (facing ∈ Object_prototype) then Some Inherited
  else None.

(** ** JavaScript values that cross the service boundary *)

Module MapCoord.
Record t := mk { mapName : string; x : num; y : num }.

(** [mapCoord.copy()]: coordinates are values here, so a copy is the
    coordinate itself; mutation of the copy is functional update. *)
Definition copy (c : t) : t := c.

(** [c.x += d[0]; c.y += d[1]] *)
Definition move (c : t) (d : Direction) : t :=
  mk (mapName c) (js_add (x c) (index d 0)) (js_add (y c) (index d 1)).
End MapCoord.

Inductive jsval :=
| VUndefined
| VBool (b : bool)
| VNum (z : Z)
| VStr (s : string)
| VCoord (c : MapCoord.t).

(** [typeof v === 'string'] *)
Definition is_string (v : jsval) : bool :=
  match v with VStr _ => true | _ => false end.

(** ToBoolean on the values above. *)
Definition truthy (v : jsval) : bool :=
  match v with
  | VUndefined => false
  | VBool b => b
  | VNum z => negb (z =? 0)
  | VStr s => negb (String.eqb s "")
  | VCoord _ => true
  end.

(** [v === 'undefined'] for the string literal the source compares with. *)
Definition strict_eq_str (v : jsval) (s : string) : bool :=
  match v with VStr s' => String.eqb s' s | _ => false end.

(** The layers of [./common/client.mjs], by name. *)
Inductive Layer := LAYER_BULLET | LAYER_OBSTACLE | LAYER_FIRE.

(** ** Geometry *)

(** A cell of an arena cell set; [w] and [h] may be absent. *)
Module Cell.
Record t := mk { x : Z; y : Z; w : option Z; h : option Z }.
End Cell.

(** Of a cell set the service reads [cells] only. *)
Record CellSet := { cells : list Cell.t }.

(** An object added to [this.fires]. *)
Module Fire.
Record t := mk { x : num; y : num; w : num; h : num }.
End Fire.

Record Bullet := {
  facing : string;
  bulletCoord : MapCoord.t;
  duration : Z
}.

(** ** JavaScript [Map] with insertion order, as an association list *)

Section JsMap.
Context {K V : Type} `{EqDecision K}.

Fixpoint Map_get (k : K) (m : list (K * V)) : option V :=
  match m with
  | [] => None
  | (k', v) :: m' => if decide (k = k') then Some v else Map_get k m'
  end.

(** [set] keeps the position of a key that is present and appends a
    new one. *)
Fixpoint Map_set (k : K) (v : V) (m : list (K * V)) : list (K * V) :=
  match m with
  | [] => [(k, v)]
  | (k', v') :: m' =>
      if decide (k = k') then (k, v) :: m' else (k', v') :: Map_set k v m'
  end.

Definition Map_delete (k : K) (m : list (K * V)) : list (K * V) :=
  filter (λ kv, kv.1 ≠ k) m.

Definition Map_keys (m : list (K * V)) : list K := m.*1.
End JsMap.

(** ** Calls to the collaborators, and the host's timers *)

Inductive CellsOut :=
| BulletCells (cs : list MapCoord.t)
| FireCells (fs : list Fire.t).

Inductive Effect :=
| broadcastCellSetUpdateToAllUser
    (op : string) (mapName : string) (layer : Layer) (cs : CellsOut)
| getCell (coord : jsval) (layer : Layer)
| getPlayers
| helper_teleport (playerID : string) (target : MapCoord.t) (forced : bool)
| console_warn (what : string)
| unhandledRejection.

(** What a timer runs.  The closure of a bullet's interval holds the
    bullet id and the map name of the attack; the cooldown timeout holds
    the player id. *)
Inductive Callback :=
| cooldown_delete (playerID : string)
| updateBullet (bulletID : nat) (mapName : string)
| updateMap.

Record Timer := {
  callback : Callback;
  delay : N;
  repeating : bool
}.

Inductive JsError := TypeError.

Inductive result (A : Type) :=
| Return (a : A)
| Throw (e : JsError).
Arguments Return {A} a.
Arguments Throw {A} e.

(** The world outside the service at the time a handler runs: the
    tracked players in iteration order, and the answer of
    [gameMap.getCell] ([None]: the call throws). *)
Record Env := {
  players : list (string * MapCoord.t);
  cellOccupied : jsval → Layer → option bool
}.

Record World := mkWorld {
  arenaOfMaps : list (string * list CellSet);
  bullets : list (nat * Bullet);
  bulletID : nat;
  fires : list Fire.t;
  cooldown : gset string;
  fireCounter : Z;
  timers : list (nat * Timer);
  nextTimer : nat;
  log : list Effect
}.

Definition set_bullets (f : list (nat * Bullet) → list (nat * Bullet))
    (s : World) : World :=
  mkWorld (arenaOfMaps s) (f (bullets s)) (bulletID s) (fires s) (cooldown s)
          (fireCounter s) (timers s) (nextTimer s) (log s).
Definition set_bulletID (n : nat) (s : World) : World :=
  mkWorld (arenaOfMaps s) (bullets s) n (fires s) (cooldown s)
          (fireCounter s) (timers s) (nextTimer s) (log s).
Definition set_fires (fs : list Fire.t) (s : World) : World :=
  mkWorld (arenaOfMaps s) (bullets s) (bulletID s) fs (cooldown s)
          (fireCounter s) (timers s) (nextTimer s) (log s).
Definition set_cooldown (c : gset string) (s : World) : World :=
  mkWorld (arenaOfMaps s) (bullets s) (bulletID s) (fires s) c
          (fireCounter s) (timers s) (nextTimer s) (log s).
Definition set_fireCounter (k : Z) (s : World) : World :=
  mkWorld (arenaOfMaps s) (bullets s) (bulletID s) (fires s) (cooldown s)
          k (timers s) (nextTimer s) (log s).
Definition set_timers (ts : list (nat * Timer)) (n : nat) (s : World) : World :=
  mkWorld (arenaOfMaps s) (bullets s) (bulletID s) (fires s) (cooldown s)
          (fireCounter s) ts n (log s).
Definition add_log (e : Effect) (s : World) : World :=
  mkWorld (arenaOfMaps s) (bullets s) (bulletID s) (fires s) (cooldown s)
          (fireCounter s) (timers s) (nextTimer s) (log s ++ [e]).

(** ** The handler monad *)

Definition M (A : Type) : Type := World → World * result A.

Global Instance M_ret : MRet M := λ A a s, (s, Return a).
Global Instance M_bind : MBind M := λ A B f m s,
  match m s with
  | (s', Return a) => f a s'
  | (s', Throw e) => (s', Throw e)
  end.

Definition throw {A} (e : JsError) : M A := λ s, (s, Throw e).
Definition gets {A} (f : World → A) : M A := λ s, (s, Return (f s)).
Definition modify (f : World → World) : M unit := λ s, (f s, Return ()).
Definition emit (e : Effect) : M unit := modify (add_log e).

(** [for (const a of l) body(a)] without early exit. *)
Fixpoint forEach {A} (body : A → M unit) (l : list A) : M unit :=
  match l with
  | [] => mret ()
  | a :: l' => body a;; forEach body l'
  end.

Definition setTimer (cb : Callback) (ms : N) (rep : bool) : M nat := λ s,
  let id := nextTimer s in
  (set_timers (timers s ++ [(id, Build_Timer cb ms rep)]) (S id) s, Return id).
Definition setTimeout (cb : Callback) (ms : N) : M nat := setTimer cb ms false.
Definition setInterval (cb : Callback) (ms : N) : M nat := setTimer cb ms true.
Definition clearInterval (id : nat) : M unit :=
  modify (λ s, set_timers (Map_delete id (timers s)) (nextTimer s) s).

(** ** The service *)

(** [insideMap]: the test on one cell, then the two nested loops that
    return at the first cell that holds the coordinate. *)
Definition cellContains (cell : Cell.t) (cellCoord : MapCoord.t) : bool :=
  let width := default 1 (Cell.w cell) in
  let height := default 1 (Cell.h cell) in
  js_le (Some (Cell.x cell)) (MapCoord.x cellCoord)
  && js_lt (MapCoord.x cellCoord) (Some (Cell.x cell + width))
  && js_le (Some (Cell.y cell)) (MapCoord.y cellCoord)
  && js_lt (MapCoord.y cellCoord) (Some (Cell.y cell + height)).

Definition insideCellSets (cellSets : list CellSet) (cellCoord : MapCoord.t)
    : bool :=
  existsb (λ cs, existsb (λ cell, cellContains cell cellCoord) (cells cs))
          cellSets.

(** Iterating [this.arenaOfMaps.get(name)] throws when the map has no
    entry. *)
Definition insideMap (cellCoord : MapCoord.t) : M bool :=
  arena ← gets (λ s, Map_get (MapCoord.mapName cellCoord) (arenaOfMaps s));
  match arena with
  | None => throw TypeError
  | Some cellSets => mret (insideCellSets cellSets cellCoord)
  end.

(** [teleport]: [mapCoord.copy()] needs a coordinate object. *)
Definition teleport (mapCoord : jsval) (playerID : string) : M unit :=
  match mapCoord with
  | VCoord c =>
      let target := MapCoord.copy c in
      emit (helper_teleport playerID
              (MapCoord.mk (MapCoord.mapName target) (Some 1) (Some 1)) true)
  | _ => throw TypeError
  end.

(** [gameMap.getCell(coord, layer)], used for its truth value. *)
Definition askCell (env : Env) (coord : jsval) (layer : Layer) : M bool :=
  emit (getCell coord layer);;
  match cellOccupied env coord layer with
  | None => throw TypeError
  | Some b => mret b
  end.

(** The 'update' of the bullet layer with the coordinates of all
    registered bullets. *)
Definition broadcastBullets (mapName : string) : M unit :=
  bs ← gets bullets;
  emit (broadcastCellSetUpdateToAllUser "update" mapName LAYER_BULLET
          (BulletCells ((λ kv, bulletCoord kv.2) <$> bs))).

(** *** updateEdge *)

Definition wbound (fireCounter : Z) (c : Cell.t) : num :=
  js_min (Some fireCounter) (js_floor_half (Cell.w c)).
Definition hbound (fireCounter : Z) (c : Cell.t) : num :=
  js_min (Some fireCounter) (js_floor_half (Cell.h c)).

(** [wbound === Math.floor(w/2) && hbound === Math.floor(h/2)] *)
Definition consumed (fireCounter : Z) (c : Cell.t) : bool :=
  js_strict_eq (wbound fireCounter c) (js_floor_half (Cell.w c))
  && js_strict_eq (hbound fireCounter c) (js_floor_half (Cell.h c)).

(** The four objects added to [fires] for one cell, in order. *)
Definition edgeStrips (fireCounter : Z) (c : Cell.t) : list Fire.t :=
  let x := Some (Cell.x c) in
  let y := Some (Cell.y c) in
  let w := Cell.w c in
  let h := Cell.h c in
  let wb := wbound fireCounter c in
  let hb := hbound fireCounter c in
  [ Fire.mk x y w hb;
    Fire.mk x (js_sub (js_add y h) hb) w hb;
    Fire.mk x y wb h;
    Fire.mk (js_sub (js_add x w) wb) y wb h ].

Record EdgeAcc := {
  acc_fires : list Fire.t;
  noUpdateCounter : nat;
  totalCell : nat
}.

Definition updateEdge_cell (fireCounter : Z) (a : EdgeAcc) (c : Cell.t)
    : EdgeAcc :=
  {| acc_fires := acc_fires a ++ edgeStrips fireCounter c;
     noUpdateCounter :=
       if consumed fireCounter c then S (noUpdateCounter a)
       else noUpdateCounter a;
     totalCell := S (totalCell a) |}.

Definition updateEdge_loop (fireCounter : Z) (cellSets : list CellSet)
    (a : EdgeAcc) : EdgeAcc :=
  fold_left (λ a cs, fold_left (updateEdge_cell fireCounter) (cells cs) a)
            cellSets a.

(** [updateEdge(fires, cellSets, fireCounter)]: the set after the
    additions (objects are fresh, so every [add] appends) and the
    returned flag. *)
Definition updateEdge (fires : list Fire.t) (cellSets : list CellSet)
    (fireCounter : Z) : list Fire.t * bool :=
  let a := updateEdge_loop fireCounter cellSets
             {| acc_fires := fires; noUpdateCounter := 0; totalCell := 0 |} in
  (acc_fires a, negb (Nat.eqb (noUpdateCounter a) (totalCell a))).

(** *** The bullet interval *)

(** The inner loop of the collision scan over [this.bullets], in
    insertion order, up to its [break]: the id of the first bullet
    accepted by the test of the source.  The test reads [x] from the
    bullet of the loop and [y] from [bulletCoord], the variable of the
    enclosing attack: the coordinate object of the bullet whose interval
    is running ([tickY]). *)
Fixpoint firstHit (player : MapCoord.t) (tickY : num)
    (bs : list (nat * Bullet)) : option nat :=
  match bs with
  | [] => None
  | (id, bullet) :: bs' =>
      if js_eq (MapCoord.x player) (MapCoord.x (bulletCoord bullet))
         && js_eq (MapCoord.y player) tickY
      then Some id
      else firstHit player tickY bs'
  end.

(** The body of [players.forEach] in the bullet interval; [self] is the
    interval's own handle [updateBullet]. *)
Definition hitScan (self : nat) (tickY : num) (p : string * MapCoord.t)
    : M unit :=
  bs ← gets bullets;
  match firstHit p.2 tickY bs with
  | None => mret ()
  | Some id =>
      teleport (VCoord p.2) p.1;;
      clearInterval self;;
      modify (set_bullets (Map_delete id))
  end.

(** [bullet.bulletCoord.x += ..; bullet.bulletCoord.y += ..;
    bullet.duration += 1] *)
Definition advance (bullet : Bullet) (d : Direction) : Bullet :=
  {| facing := facing bullet;
     bulletCoord := MapCoord.move (bulletCoord bullet) d;
     duration := duration bullet + 1 |}.

(** The condition of the [if], with its short-circuit evaluation. *)
Definition terminated (env : Env) (bullet : Bullet) : M bool :=
  if BULLET_LIFE <=? duration bullet then mret true
  else
    inside ← insideMap (bulletCoord bullet);
    if negb inside then mret true
    else askCell env (VCoord (bulletCoord bullet)) LAYER_OBSTACLE.

(** The [if]/[else] of the callback, entered with the moved bullet. *)
Definition afterMove (env : Env) (self : nat) (bulletID : nat)
    (mapName : string) (bullet : Bullet) : M unit :=
  over ← terminated env bullet;
  if over : bool then
    clearInterval self;;
    modify (set_bullets (Map_delete bulletID));;
    broadcastBullets mapName
  else
    emit getPlayers;;
    forEach (hitScan self (MapCoord.y (bulletCoord bullet))) (players env);;
    broadcastBullets mapName.

(** The callback of [setInterval] in [c2s_attack].  Reading a field of
    [this.bullets.get(bulletID)] throws when the bullet is gone, and
    reading an element of [Facing2Direction[bullet.facing]] throws when
    that is [undefined]. *)
Definition updateBullet_tick (env : Env) (self : nat) (bulletID : nat)
    (mapName : string) : M unit :=
  found ← gets (λ s, Map_get bulletID (bullets s));
  match found with
  | None => throw TypeError
  | Some bullet =>
      match Facing2Direction (facing bullet) with
      | None => throw TypeError
      | Some d =>
          let bullet := advance bullet d in
          modify (set_bullets (Map_set bulletID bullet));;
          afterMove env self bulletID mapName bullet
      end
  end.

(** *** The arena interval *)

Definition fireScan (env : Env) (p : string * MapCoord.t) : M unit :=
  hot ← askCell env (VCoord p.2) LAYER_FIRE;
  if hot : bool then teleport (VCoord p.2) p.1 else mret ().

(** The loop over [this.arenaOfMaps.keys()], with its [return]. *)
Fixpoint updateMap_loop (env : Env) (self : nat) (mapNames : list string)
    : M unit :=
  match mapNames with
  | [] => mret ()
  | mapName :: rest =>
      arena ← gets (λ s, Map_get mapName (arenaOfMaps s));
      match arena with
      | None => throw TypeError
      | Some cellSets =>
          r ← gets (λ s, updateEdge (fires s) cellSets (fireCounter s));
          modify (set_fires r.1);;
          if negb r.2 then clearInterval self
          else
            fs ← gets fires;
            emit (broadcastCellSetUpdateToAllUser "update" mapName LAYER_FIRE
                    (FireCells fs));;
            emit getPlayers;;
            forEach (fireScan env) (players env);;
            updateMap_loop env self rest
      end
  end.

Definition updateMap_tick (env : Env) (self : nat) : M unit :=
  modify (λ s, set_fireCounter (fireCounter s + 1) s);;
  modify (set_fires []);;
  mapNames ← gets (λ s, Map_keys (arenaOfMaps s));
  updateMap_loop env self mapNames.

(** *** Player updates *)

Record PlayerSyncMessage := {
  msg_mapCoord : jsval;
  msg_playerID : jsval
}.

Definition onPlayerUpdate (env : Env) (msg : PlayerSyncMessage) : M unit :=
  let mapCoord := msg_mapCoord msg in
  match msg_playerID msg with
  | VStr playerID =>
      if strict_eq_str mapCoord "undefined" then mret ()
      else
        bullets ← askCell env mapCoord LAYER_BULLET;
        if bullets : bool then teleport mapCoord playerID
        else
          fire ← askCell env mapCoord LAYER_FIRE;
          if fire : bool then teleport mapCoord playerID
          else mret ()
  | _ =>
      emit (console_warn
              "Invalid PlayerSyncMessage with non-string msg.playerID")
  end.

(** The listener registered by [initialize].  [onPlayerUpdate] is an
    async function: a throw inside it rejects the promise it returns,
    which the [try] of the listener does not observe. *)
Definition playerUpdateListener (env : Env) (msg : PlayerSyncMessage)
    : M unit := λ s,
  match onPlayerUpdate env msg s with
  | (s', Return _) => (s', Return ())
  | (s', Throw _) => (add_log unhandledRejection s', Return ())
  end.

(** *** Attack *)

Section Attack.
(** [BULLET_COOLDOWN] is imported from [./common/client.mjs]. *)
Variable BULLET_COOLDOWN : N.

(** Reading [Facing2Direction[facing][0]] throws when [facing] names no
    property, own or inherited; an inherited one gives [undefined], and
    the bullet is registered with the coordinates [NaN]. *)
Definition c2s_attack (player : string) (mapCoord : MapCoord.t)
    (facing : string) : M jsval :=
  inside ← insideMap mapCoord;
  if negb inside then mret VUndefined
  else
    waiting ← gets (λ s, bool_decide (player ∈ cooldown s));
    if waiting : bool then mret VUndefined
    else
      modify (λ s, set_cooldown ({[player]} ∪ cooldown s) s);;
      setTimeout (cooldown_delete player) BULLET_COOLDOWN;;
      bulletID ← gets bulletID;
      modify (set_bulletID (S bulletID));;
      match Facing2Direction facing with
      | None => throw TypeError
      | Some d =>
          let bulletCoord := MapCoord.move (MapCoord.copy mapCoord) d in
          modify (set_bullets
                    (Map_set bulletID
                       {| facing := facing; bulletCoord := bulletCoord;
                          duration := 0 |}));;
          broadcastBullets (MapCoord.mapName mapCoord);;
          setInterval (updateBullet bulletID (MapCoord.mapName mapCoord))
                      BULLET_SPEED;;
          mret (VBool true)
      end.

(** ** The host: timers and inbound calls *)

Definition runCallback (env : Env) (self : nat) (cb : Callback) : M unit :=
  match cb with
  | cooldown_delete playerID =>
      modify (λ s, set_cooldown (cooldown s ∖ {[playerID]}) s)
  | updateBullet bulletID mapName => updateBullet_tick env self bulletID mapName
  | updateMap => updateMap_tick env self
  end.

(** A pending timer fires: a timeout is spent, an interval stays until
    cleared. *)
Definition fireTimer (env : Env) (id : nat) : M unit :=
  found ← gets (λ s, Map_get id (timers s));
  match found with
  | None => mret ()
  | Some t =>
      (if repeating t then mret () else clearInterval id);;
      runCallback env id (callback t)
  end.

Inductive Event :=
| Attack (player : string) (mapCoord : MapCoord.t) (facing : string)
| TimerFires (id : nat)
| PlayerUpdate (msg : PlayerSyncMessage).

Definition step (s : World) (ev : Env * Event) : World :=
  match ev.2 with
  | Attack player mapCoord facing => (c2s_attack player mapCoord facing s).1
  | TimerFires id =>
      match fireTimer ev.1 id s with
      | (s', Return _) => s'
      | (s', Throw _) => add_log unhandledRejection s'
      end
  | PlayerUpdate msg => (playerUpdateListener ev.1 msg s).1
  end.

Definition run (evs : list (Env * Event)) (s : World) : World :=
  fold_left step evs s.
End Attack.

(** [initialize], from the arena cell sets of the game map. *)
Definition announce (mapName : string) : M unit :=
  emit (broadcastCellSetUpdateToAllUser "set" mapName LAYER_BULLET
          (BulletCells []));;
  emit (broadcastCellSetUpdateToAllUser "set" mapName LAYER_FIRE
          (BulletCells [])).

Definition initialize (arena : list (string * list CellSet)) : World :=
  let s := mkWorld arena [] 0 [] ∅ 0 [] 0 [] in
  (( forEach announce (Map_keys arena);;
     setInterval updateMap MAP_UPDATE_PERIOD ) s).1.

(** * Vocabulary of the properties *)

(** The world after a permitted attack: the cooldown entry with its
    timeout, the bullet at the origin moved by [d] with its interval, and
    the broadcast of the bullet layer. *)
Definition fired (BULLET_COOLDOWN : N) (player : string)
    (mapCoord : MapCoord.t) (facing : string) (d : Direction) (s : World)
    : World :=
  let bs := Map_set (bulletID s)
              {| facing := facing;
                 bulletCoord := MapCoord.move mapCoord d;
                 duration := 0 |} (bullets s) in
  {| arenaOfMaps := arenaOfMaps s;
     bullets := bs;
     bulletID := S (bulletID s);
     fires := fires s;
     cooldown := {[player]} ∪ cooldown s;
     fireCounter := fireCounter s;
     timers :=
       (timers s
          ++ [(nextTimer s,
               {| callback := cooldown_delete player;
                  delay := BULLET_COOLDOWN; repeating := false |})])
          ++ [(S (nextTimer s),
               {| callback :=
                    updateBullet (bulletID s) (MapCoord.mapName mapCoord);
                  delay := BULLET_SPEED; repeating := true |})];
     nextTimer := S (S (nextTimer s));
     log := log s
            ++ [broadcastCellSetUpdateToAllUser "update"
                  (MapCoord.mapName mapCoord) LAYER_BULLET
                  (BulletCells ((λ kv, bulletCoord kv.2) <$> bs))] |}.

(** The world in which an attack throws on a facing that names no
    property: the cooldown is taken and a bullet id is spent, but no
    bullet exists. *)
Definition charged (BULLET_COOLDOWN : N) (player : string) (s : World)
    : World :=
  {| arenaOfMaps := arenaOfMaps s;
     bullets := bullets s;
     bulletID := S (bulletID s);
     fires := fires s;
     cooldown := {[player]} ∪ cooldown s;
     fireCounter := fireCounter s;
     timers :=
       timers s
         ++ [(nextTimer s,
              {| callback := cooldown_delete player;
                 delay := BULLET_COOLDOWN; repeating := false |})];
     nextTimer := S (nextTimer s);
     log := log s |}.

(** The world after the interval [self] dropped the bullet [bid]: the
    interval is cleared, the bullet deleted, [asked] holds the calls made
    by the test, and the bullet layer is broadcast. *)
Definition dropped (self bid : nat) (mapName : string)
    (asked : list Effect) (s : World) : World :=
  let bs := Map_delete bid (bullets s) in
  {| arenaOfMaps := arenaOfMaps s;
     bullets := bs;
     bulletID := bulletID s;
     fires := fires s;
     cooldown := cooldown s;
     fireCounter := fireCounter s;
     timers := Map_delete self (timers s);
     nextTimer := nextTimer s;
     log := (log s ++ asked)
            ++ [broadcastCellSetUpdateToAllUser "update" mapName LAYER_BULLET
                  (BulletCells ((λ kv, bulletCoord kv.2) <$> bs))] |}.

(** The world after the cooldown timeout [id] of [playerID] ran. *)
Definition released (id : nat) (playerID : string) (s : World) : World :=
  set_cooldown (cooldown s ∖ {[playerID]})
    (set_timers (Map_delete id (timers s)) (nextTimer s) s).

(** A handler keeps the relation [R] between the world it starts in and
    the world it leaves, whether it returns or throws. *)
Definition preserves {A} (R : relation World) (m : M A) : Prop :=
  ∀ s, R s (m s).1.

(** The registry only loses entries. *)
Definition shrunk : relation World := λ s s',
  ∀ k, Map_get k (bullets s') = None
       ∨ Map_get k (bullets s') = Map_get k (bullets s).

(** The log only grows. *)
Definition logged : relation World := λ s s',
  ∃ rest, log s' = log s ++ rest.

(** Nothing of the cooldown gate moves, and of the timers at most
    [self] is cleared. *)
Definition calm (self : nat) : relation World := λ s s',
  cooldown s' = cooldown s
  ∧ nextTimer s' = nextTimer s
  ∧ (timers s' = timers s ∨ timers s' = Map_delete self (timers s)).

(** Every registered bullet is younger than [BULLET_LIFE]. *)
Definition young (s : World) : Prop :=
  ∀ k b, Map_get k (bullets s) = Some b → duration b < BULLET_LIFE.

(** The pending timers: handles are unique and below the next handle; a
    pending cooldown timeout is a one-shot timer of a player who is in
    the cooldown set, and a player has at most one. *)
Record timers_wf (s : World) : Prop := {
  wf_below : ∀ id t, (id, t) ∈ timers s → (id < nextTimer s)%nat;
  wf_nodup : NoDup (timers s).*1;
  wf_held : ∀ id t q, (id, t) ∈ timers s →
            callback t = cooldown_delete q →
            q ∈ cooldown s ∧ repeating t = false;
  wf_single : ∀ id1 t1 id2 t2 q,
            (id1, t1) ∈ timers s → (id2, t2) ∈ timers s →
            callback t1 = cooldown_delete q →
            callback t2 = cooldown_delete q → id1 = id2
}.

(** The worlds the service can be in: [initialize], then any sequence
    of attacks, timer firings and player updates. *)
Definition reachable (BULLET_COOLDOWN : N) (s : World) : Prop :=
  ∃ arena evs, s = run BULLET_COOLDOWN evs (initialize arena).

(** The cooldown window of [player] opened with the timeout [tid]. *)
Definition window (player : string) (tid : nat) (s : World) : Prop :=
  player ∈ cooldown s
  ∧ (∃ t, (tid, t) ∈ timers s ∧ callback t = cooldown_delete player)
  ∧ timers_wf s.

(** The handle [tid] does not fire in [evs]. *)
Definition silent (tid : nat) (evs : list (Env * Event)) : Prop :=
  ∀ env, (env, TimerFires tid) ∉ evs.

(** ** Observations on the log *)

(** The relocations requested from the helper, in order. *)
Definition relocations (l : list Effect)
    : list (string * MapCoord.t * bool) :=
  omap (λ e, match e with
             | helper_teleport p c b => Some (p, c, b)
             | _ => None
             end) l.

(** The fire layers broadcast as 'update', in order. *)
Definition fireUpdates (l : list Effect) : list (string * list Fire.t) :=
  omap (λ e, match e with
             | broadcastCellSetUpdateToAllUser _ m LAYER_FIRE (FireCells fs) =>
                 Some (m, fs)
             | _ => None
             end) l.

(** The layer lookups, in order. *)
Definition lookups (l : list Effect) : list (jsval * Layer) :=
  omap (λ e, match e with getCell c ly => Some (c, ly) | _ => None end) l.

(** The warnings written to the console. *)
Definition warnings (l : list Effect) : list string :=
  omap (λ e, match e with console_warn w => Some w | _ => None end) l.

(** ** Concrete rounds *)

Definition rect (x y w h : Z) : Cell.t := Cell.mk x y (Some w) (Some h).

(** One map ["m"] whose arena is the square of side 20 at the origin. *)
Definition arena_m : list (string * list CellSet) :=
  [("m", [ {| cells := [rect 0 0 20 20] |} ])].

(** Two maps: ["A"] with a 2x2 arena, ["B"] with a 10x10 arena. *)
Definition arena_AB : list (string * list CellSet) :=
  [("A", [ {| cells := [rect 0 0 2 2] |} ]);
   ("B", [ {| cells := [rect 0 0 10 10] |} ])].

(** One map with a 4x4 arena. *)
Definition arena_small : list (string * list CellSet) :=
  [("m", [ {| cells := [rect 0 0 4 4] |} ])].

(** The game map answers no for every coordinate and throws on anything
    that is not a coordinate. *)
Definition clearCells (v : jsval) (_ : Layer) : option bool :=
  match v with VCoord _ => Some false | _ => None end.

Definition nobody : Env := {| players := []; cellOccupied := clearCells |}.

Definition at_m (x y : Z) : MapCoord.t := MapCoord.mk "m" (Some x) (Some y).

(** Player ["v"] stands on (5,4). *)
Definition victim : Env :=
  {| players := [("v", at_m 5 4)]; cellOccupied := clearCells |}.

(** Players ["v"] and ["u"] both stand on (3,5). *)
Definition crowd : Env :=
  {| players := [("v", at_m 3 5); ("u", at_m 3 5)];
     cellOccupied := clearCells |}.

Definition cd_ms : N := 1000.

(** After [initialize], ["a"] shoots right from (4,9) and ["b"] shoots
    up from (5,2): bullet 0 is at (5,9) with interval 2, bullet 1 at
    (5,3) with interval 4. *)
Definition two_bullets : World :=
  run cd_ms [(nobody, Attack "a" (at_m 4 9) "R");
             (nobody, Attack "b" (at_m 5 2) "U")]
      (initialize arena_m).

(** After [initialize], ["p"] shoots up from (3,3). *)
Definition one_shot : World * result jsval :=
  c2s_attack cd_ms "p" (at_m 3 3) "U" (initialize arena_m).

(** After [initialize], ["p"] attacks from (3,3) with the facing
    ["constructor"], a name inherited from [Object.prototype]. *)
Definition lost_shot : World * result jsval :=
  c2s_attack cd_ms "p" (at_m 3 3) "constructor" (initialize arena_m).

(** A world whose only bullet has made four steps. *)
Definition old_bullet : World :=
  {| arenaOfMaps := arena_m;
     bullets := [(0%nat, {| facing := "U"; bulletCoord := at_m 3 8;
                            duration := 4 |})];
     bulletID := 1;
     fires := [];
     cooldown := ∅;
     fireCounter := 0;
     timers := [(2%nat, {| callback := updateBullet 0 "m";
                           delay := BULLET_SPEED; repeating := true |})];
     nextTimer := 3;
     log := [] |}.

(** ** Vocabulary of further properties *)

(** A fire rectangle read the way [insideMap] reads a cell: [x] and [y]
    must be numbers; the sizes go through the same test. *)
Definition fireCell (f : Fire.t) : option Cell.t :=
  match Fire.x f, Fire.y f with
  | Some x, Some y => Some (Cell.mk x y (Fire.w f) (Fire.h f))
  | _, _ => None
  end.

Definition covers (f : Fire.t) (c : MapCoord.t) : bool :=
  match fireCell f with
  | Some cell => cellContains cell c
  | None => false
  end.

(** The arena table and the bullet id counter stay as they are. *)
Definition rooted : relation World := λ s s',
  arenaOfMaps s' = arenaOfMaps s ∧ bulletID s' = bulletID s.

(** Where a bullet with the direction [d] can be: on integer
    coordinates when [d] is an array of the literal; at ([NaN], [NaN]),
    not yet moved, when [d] is inherited. *)
Definition placed (d : Direction) (b : Bullet) : Prop :=
  match d with
  | Array _ _ =>
      is_Some (MapCoord.x (bulletCoord b))
      ∧ is_Some (MapCoord.y (bulletCoord b))
  | Inherited =>
      MapCoord.x (bulletCoord b) = None ∧ MapCoord.y (bulletCoord b) = None
      ∧ duration b = 0
  end.

(** The registered bullets are well formed: the id is below the counter,
    the facing names a property of [Facing2Direction], the bullet is
    placed as its direction says, the map of the position has arena cell
    sets, and the age is at least 0 and below [BULLET_LIFE]. *)
Record bullets_wf (s : World) : Prop := {
  bw_fresh : ∀ k b, Map_get k (bullets s) = Some b → (k < bulletID s)%nat;
  bw_facing : ∀ k b, Map_get k (bullets s) = Some b →
              ∃ d, Facing2Direction (facing b) = Some d ∧ placed d b;
  bw_arena : ∀ k b, Map_get k (bullets s) = Some b →
             is_Some (Map_get (MapCoord.mapName (bulletCoord b))
                        (arenaOfMaps s));
  bw_age : ∀ k b, Map_get k (bullets s) = Some b →
           0 ≤ duration b < BULLET_LIFE
}.

(** The game map answers every lookup of a coordinate. *)
Definition answers (env : Env) : Prop :=
  ∀ c layer, is_Some (cellOccupied env (VCoord c) layer).

(** Every player in the cooldown set has a pending release timeout. *)
Definition held (s : World) : Prop :=
  ∀ q, q ∈ cooldown s →
       ∃ id t, (id, t) ∈ timers s ∧ callback t = cooldown_delete q.

(** No timer runs the arena tick any more. *)
Definition halted (s : World) : Prop :=
  ∀ id t, (id, t) ∈ timers s → callback t ≠ updateMap.

(** The fire side of the world stays as it is: counter, fire set and
    the fire layers broadcast so far. *)
Definition unlit : relation World := λ s s',
  fireCounter s' = fireCounter s ∧ fires s' = fires s
  ∧ fireUpdates (log s') = fireUpdates (log s).

(** The world after [initialize]. *)
Definition started (arena : list (string * list CellSet)) : World :=
  {| arenaOfMaps := arena;
     bullets := [];
     bulletID := 0;
     fires := [];
     cooldown := ∅;
     fireCounter := 0;
     timers := [(0%nat, {| callback := updateMap; delay := MAP_UPDATE_PERIOD;
                           repeating := true |})];
     nextTimer := 1;
     log := flat_map
              (λ mapName,
                 [ broadcastCellSetUpdateToAllUser "set" mapName LAYER_BULLET
                     (BulletCells []);
                   broadcastCellSetUpdateToAllUser "set" mapName LAYER_FIRE
                     (BulletCells []) ])
              (Map_keys arena) |}.

(** The pending timers only lose entries. *)
Definition waning : relation World := λ s s',
  ∀ id t, (id, t) ∈ timers s' → (id, t) ∈ timers s.

(** The calls of [players.forEach] in the arena tick: a lookup on the
    fire layer for every player, followed by a relocation when the
    answer is yes. *)
Definition scanLog (env : Env) (ps : list (string * MapCoord.t))
    : list Effect :=
  flat_map
    (λ p, getCell (VCoord p.2) LAYER_FIRE ::
          match cellOccupied env (VCoord p.2) LAYER_FIRE with
          | Some true =>
              [helper_teleport p.1
                 (MapCoord.mk (MapCoord.mapName p.2) (Some 1) (Some 1))
                 true]
          | _ => []
          end) ps.

(** The strips of all cells of the cell sets of a map, in order. *)
Definition mapStrips (k : Z) (cellSets : list CellSet) : list Fire.t :=
  flat_map (λ cs, flat_map (edgeStrips k) (cells cs)) cellSets.

(** A handler only talks: the world it leaves is the world it started
    in with calls appended to the log. *)
Definition told : relation World := λ s s',
  ∃ es, s' = fold_left (λ s e, add_log e s) es s.

(** Player ["v"] stands on (0,0), and the game map reports fire on the
    cells of column 0. *)
Definition burning : Env :=
  {| players := [("v", at_m 0 0); ("u", at_m 7 7)];
     cellOccupied := λ v layer,
       match v, layer with
       | VCoord c, LAYER_FIRE => Some (js_eq (MapCoord.x c) (Some 0))
       | VCoord _, _ => Some false
       | _, _ => None
       end |}.

(** A component of the world stays as it is. *)
Definition keeps {A} (f : World → A) : relation World := λ s s', f s' = f s.

(** The three kinds of timers the service starts, with their delays. *)
Definition shaped (BULLET_COOLDOWN : N) (t : Timer) : Prop :=
  match callback t with
  | updateMap => delay t = MAP_UPDATE_PERIOD ∧ repeating t = true
  | cooldown_delete _ => delay t = BULLET_COOLDOWN ∧ repeating t = false
  | updateBullet _ _ => delay t = BULLET_SPEED ∧ repeating t = true
  end.

Section JsMapFacts.
Context {K V : Type} `{EqDecision K}.

Lemma Map_get_set_eq (k : K) (v : V) (m : list (K * V)) :
  Map_get k (Map_set k v m) = Some v.
Proof.
  induction m as [|[k' v'] m IH]; simpl.
  - by rewrite decide_True.
  - destruct (decide (k = k')) as [->|Hne]; simpl.
    + by rewrite decide_True.
    + by rewrite decide_False.
Qed.

Lemma Map_get_set_ne (k k' : K) (v : V) (m : list (K * V)) :
  k ≠ k' → Map_get k' (Map_set k v m) = Map_get k' m.
Proof.
  intros Hne. induction m as [|[k0 v0] m IH]; simpl.
  - by rewrite decide_False.
  - destruct (decide (k = k0)) as [->|Hne0]; simpl.
    + by rewrite !decide_False.
    + destruct (decide (k' = k0)); done.
Qed.

Lemma Map_get_delete_eq (k : K) (m : list (K * V)) :
  Map_get k (Map_delete k m) = None.
Proof.
  unfold Map_delete. induction m as [|[k' v'] m IH]; [done|].
  rewrite filter_cons. simpl. destruct (decide (k' ≠ k)) as [Hne|Heq]; simpl.
  - by rewrite decide_False.
  - done.
Qed.

Lemma Map_get_delete_ne (k k' : K) (m : list (K * V)) :
  k ≠ k' → Map_get k' (Map_delete k m) = Map_get k' m.
Proof.
  intros Hne. unfold Map_delete. induction m as [|[k0 v0] m IH]; [done|].
  rewrite filter_cons. simpl. destruct (decide (k0 ≠ k)) as [Hne0|Heq]; simpl.
  - by rewrite IH.
  - apply dec_stable in Heq. subst k0. by rewrite decide_False.
Qed.

Lemma Map_delete_set (k : K) (v : V) (m : list (K * V)) :
  Map_delete k (Map_set k v m) = Map_delete k m.
Proof.
  unfold Map_delete. induction m as [|[k0 v0] m IH]; simpl.
  - rewrite filter_cons. simpl. by rewrite decide_False; [|intros ?; done].
  - destruct (decide (k = k0)) as [->|Hne]; rewrite !filter_cons; simpl.
    + rewrite !decide_False; [done| |]; intros ?; done.
    + rewrite IH. done.
Qed.

Lemma Map_get_Some_elem (k : K) (v : V) (m : list (K * V)) :
  Map_get k m = Some v → (k, v) ∈ m.
Proof.
  induction m as [|[k0 v0] m IH]; simpl; [done|].
  destruct (decide (k = k0)) as [->|Hne].
  - intros [= ->]. left.
  - intros H'. right. auto.
Qed.
End JsMapFacts.

Ltac unfoldM :=
  unfold mbind, M_bind, mret, M_ret, emit, gets, modify, throw.

Ltac unfoldW :=
  unfold add_log, set_bullets, set_bulletID, set_fires, set_cooldown,
    set_fireCounter, set_timers; simpl.

(** * The arena shrinker: [updateEdge] *)

Lemma updateEdge_cells_fires (k : Z) (cs : list Cell.t) (a : EdgeAcc) :
  acc_fires (fold_left (updateEdge_cell k) cs a)
  = acc_fires a ++ flat_map (edgeStrips k) cs.
Proof.
  revert a. induction cs as [|c cs IH]; intros a; simpl.
  - by rewrite app_nil_r.
  - rewrite IH. simpl. by rewrite <- app_assoc.
Qed.

Lemma updateEdge_loop_fires (k : Z) (cellSets : list CellSet) (a : EdgeAcc) :
  acc_fires (updateEdge_loop k cellSets a)
  = acc_fires a ++ flat_map (λ cs, flat_map (edgeStrips k) (cells cs)) cellSets.
Proof.
  unfold updateEdge_loop. revert a.
  induction cellSets as [|cs css IH]; intros a; simpl.
  - by rewrite app_nil_r.
  - rewrite IH, updateEdge_cells_fires. by rewrite <- app_assoc.
Qed.

Lemma half_le (k w : Z) : 2 * Z.min k (w / 2) ≤ w.
Proof.
  pose proof (Z.mul_div_le w 2 ltac:(lia)). lia.
Qed.

(** C4: [updateEdge] adds to the fire set, for every cell of every cell
    set and in order, exactly the four strips top (x, y, w, hBound),
    bottom (x, y+h-hBound, w, hBound), left (x, y, wBound, h) and right
    (x+w-wBound, y, wBound, h), with wBound = min(k, floor(w/2)) and
    hBound = min(k, floor(h/2)); twice a bound never exceeds the
    dimension it is taken from. *)
Theorem updateEdge_four_strips (fires : list Fire.t) (cellSets : list CellSet)
    (k : Z) :
  (updateEdge fires cellSets k).1
  = fires ++ flat_map (λ cs, flat_map (edgeStrips k) (cells cs)) cellSets
  ∧ ∀ x y w h : Z,
      let wBound := Z.min k (w / 2) in
      let hBound := Z.min k (h / 2) in
      edgeStrips k (Cell.mk x y (Some w) (Some h))
      = [ Fire.mk (Some x) (Some y) (Some w) (Some hBound);
          Fire.mk (Some x) (Some (y + h - hBound)) (Some w) (Some hBound);
          Fire.mk (Some x) (Some y) (Some wBound) (Some h);
          Fire.mk (Some (x + w - wBound)) (Some y) (Some wBound) (Some h) ]
      ∧ wbound k (Cell.mk x y (Some w) (Some h)) = Some wBound
      ∧ hbound k (Cell.mk x y (Some w) (Some h)) = Some hBound
      ∧ 2 * wBound ≤ w ∧ 2 * hBound ≤ h.
Proof.
  split.
  - unfold updateEdge. simpl. by rewrite updateEdge_loop_fires.
  - intros x y w h wBound hBound. repeat split; try apply half_le.
Qed.

(** The loop over the cell sets is one pass over all their cells. *)
Lemma updateEdge_loop_flat (k : Z) (cellSets : list CellSet) (a : EdgeAcc) :
  updateEdge_loop k cellSets a
  = fold_left (updateEdge_cell k) (flat_map cells cellSets) a.
Proof.
  unfold updateEdge_loop. revert a.
  induction cellSets as [|cs css IH]; intros a; simpl; [done|].
  by rewrite IH, fold_left_app.
Qed.

(** The counters after a pass: [totalCell] counts the cells and
    [noUpdateCounter] the consumed ones among them. *)
Lemma updateEdge_counters (k : Z) (cs : list Cell.t) (a : EdgeAcc) :
  let a' := fold_left (updateEdge_cell k) cs a in
  totalCell a' = (totalCell a + length cs)%nat
  ∧ (noUpdateCounter a ≤ noUpdateCounter a'
     ≤ noUpdateCounter a + length cs)%nat
  ∧ (noUpdateCounter a' = (noUpdateCounter a + length cs)%nat
     ↔ forallb (consumed k) cs = true).
Proof.
  revert a. induction cs as [|c cs IH]; intros a; simpl.
  - split; [lia|]. split; [lia|]. split; [done|lia].
  - destruct (IH (updateEdge_cell k a c)) as (Ht & Hn & Hall).
    assert (Htot : totalCell (updateEdge_cell k a c) = S (totalCell a))
      by done.
    assert (Hno : noUpdateCounter (updateEdge_cell k a c)
                  = if consumed k c then S (noUpdateCounter a)
                    else noUpdateCounter a) by done.
    rewrite Htot in Ht. rewrite Hno in Hn, Hall.
    split; [lia|].
    destruct (consumed k c); simpl.
    + split; [lia|]. rewrite <- Hall. lia.
    + split; [lia|]. split; [lia|done].
Qed.

(** [updateEdge] reports an update exactly when some cell is not yet
    consumed. *)
Lemma updateEdge_flag (fires : list Fire.t) (cellSets : list CellSet)
    (k : Z) :
  (updateEdge fires cellSets k).2
  = negb (forallb (consumed k) (flat_map cells cellSets)).
Proof.
  unfold updateEdge. cbn [snd]. rewrite updateEdge_loop_flat.
  destruct (updateEdge_counters k (flat_map cells cellSets)
              {| acc_fires := fires; noUpdateCounter := 0; totalCell := 0 |})
    as (Ht & _ & Hall).
  simpl in Ht, Hall. f_equal.
  destruct (forallb (consumed k) (flat_map cells cellSets)).
  - apply Nat.eqb_eq. rewrite Ht. by apply Hall.
  - apply Nat.eqb_neq. rewrite Ht. intros Heq. by apply Hall in Heq.
Qed.

(** When the cell sets of a map report no update, the loop clears the
    interval and returns: the maps that follow are not looked at, and
    nothing is broadcast. *)
Lemma updateMap_loop_stops env self s mapName cellSets rest :
  Map_get mapName (arenaOfMaps s) = Some cellSets →
  (updateEdge (fires s) cellSets (fireCounter s)).2 = false →
  updateMap_loop env self (mapName :: rest) s
  = (set_timers (Map_delete self (timers s)) (nextTimer s)
       (set_fires (updateEdge (fires s) cellSets (fireCounter s)).1 s),
     Return ()).
Proof.
  intros Harena Hstop. cbn [updateMap_loop]. unfold clearInterval. unfoldM.
  rewrite Harena, Hstop. reflexivity.
Qed.

Lemma updateMap_tick_stops_at_first_map env self s mapName cellSets rest :
  arenaOfMaps s = (mapName, cellSets) :: rest →
  (updateEdge [] cellSets (fireCounter s + 1)).2 = false →
  updateMap_tick env self s
  = (set_timers (Map_delete self (timers s)) (nextTimer s)
       (set_fires (updateEdge [] cellSets (fireCounter s + 1)).1
          (set_fireCounter (fireCounter s + 1) s)),
     Return ()).
Proof.
  intros Harena Hstop. unfold updateMap_tick. unfoldM.
  set (s1 := set_fires [] (set_fireCounter (fireCounter s + 1) s)).
  assert (Hkeys : Map_keys (arenaOfMaps s1) = mapName :: Map_keys rest).
  { subst s1. simpl. by rewrite Harena. }
  rewrite Hkeys. rewrite (updateMap_loop_stops env self s1 mapName cellSets).
  - reflexivity.
  - subst s1. simpl. rewrite Harena. simpl. by rewrite decide_True.
  - exact Hstop.
Qed.

(** * Attack *)

(** [insideCellSets] is false exactly when no cell of no cell set holds
    the coordinate. *)
Lemma cellContains_spec (cell : Cell.t) (c : MapCoord.t) :
  cellContains cell c = true ↔
  ∃ px py,
    MapCoord.x c = Some px ∧ MapCoord.y c = Some py
    ∧ Cell.x cell ≤ px < Cell.x cell + default 1 (Cell.w cell)
    ∧ Cell.y cell ≤ py < Cell.y cell + default 1 (Cell.h cell).
Proof.
  unfold cellContains. destruct c as [m [px|] [py|]]; simpl.
  - rewrite !andb_true_iff, !Z.leb_le, !Z.ltb_lt. split.
    + intros Hin. exists px, py. tauto.
    + intros (px' & py' & [= <-] & [= <-] & Hin). tauto.
  - rewrite andb_false_r. split; [done|]. by intros (? & ? & _ & ? & _).
  - split; [done|]. by intros (? & ? & ? & _).
  - split; [done|]. by intros (? & ? & ? & _).
Qed.

(** A coordinate that is not a number is in no cell. *)
Lemma cellContains_NaN (cell : Cell.t) (c : MapCoord.t) :
  MapCoord.x c = None ∨ MapCoord.y c = None → cellContains cell c = false.
Proof.
  intros Hnan. apply not_true_is_false. intros Hin.
  apply cellContains_spec in Hin as (px & py & Hx & Hy & _).
  destruct Hnan; congruence.
Qed.

Lemma insideCellSets_false (cellSets : list CellSet) (c : MapCoord.t) :
  insideCellSets cellSets c = false ↔
  ∀ cs cell, cs ∈ cellSets → cell ∈ cells cs → cellContains cell c = false.
Proof.
  unfold insideCellSets. split.
  - intros Hout cs cell Hcs Hcell.
    destruct (cellContains cell c) eqn:Hin; [|done].
    rewrite <- Hout. symmetry. apply existsb_exists.
    exists cs. split; [by apply list_elem_of_In|].
    apply existsb_exists. exists cell. split; [by apply list_elem_of_In|done].
  - intros Hall. apply not_true_is_false. intros Hin.
    apply existsb_exists in Hin as (cs & Hcs & Hin).
    apply existsb_exists in Hin as (cell & Hcell & Hin).
    apply list_elem_of_In in Hcs, Hcell.
    by rewrite (Hall cs cell) in Hin.
Qed.

(** The properties of [Facing2Direction]: the four arrays of the
    literal, and what the literal inherits. *)
Lemma Facing2Direction_inv (f : string) (d : Direction) :
  Facing2Direction f = Some d →
  (f = "U" ∧ d = Array 0 1) ∨ (f = "D" ∧ d = Array 0 (-1))
  ∨ (f = "R" ∧ d = Array 1 0) ∨ (f = "L" ∧ d = Array (-1) 0)
  ∨ (f ∈ Object_prototype ∧ d = Inherited).
Proof.
  unfold Facing2Direction.
  destruct (String.eqb_spec f "U") as [->|_]; [intros [= <-]; auto|].
  destruct (String.eqb_spec f "D") as [->|_]; [intros [= <-]; auto|].
  destruct (String.eqb_spec f "R") as [->|_]; [intros [= <-]; auto|].
  destruct (String.eqb_spec f "L") as [->|_]; [intros [= <-]; auto 6|].
  destruct (bool_decide (f ∈ Object_prototype)) eqn:Hin; [|done].
  intros [= <-]. do 4 right. split; [|done].
  by apply (bool_decide_eq_true_1 (f ∈ Object_prototype)).
Qed.

(** An inherited name finds its member, a name that is neither own nor
    inherited finds nothing. *)
Lemma Facing2Direction_inherited (f : string) :
  f ∈ Object_prototype → Facing2Direction f = Some Inherited.
Proof.
  intros Hin. unfold Object_prototype in Hin.
  repeat (apply elem_of_cons in Hin as [-> |Hin]; [reflexivity|]).
  by apply elem_of_nil in Hin.
Qed.

Lemma Facing2Direction_None (f : string) :
  Facing2Direction f = None ↔
  (f ∉ ["U"; "D"; "R"; "L"]) ∧ (f ∉ Object_prototype).
Proof.
  split.
  - intros Hnone. split; intros Hin.
    + repeat (apply elem_of_cons in Hin as [-> |Hin]; [done|]).
      by apply elem_of_nil in Hin.
    + by rewrite Facing2Direction_inherited in Hnone.
  - intros [Hown Hinh].
    destruct (Facing2Direction f) as [d|] eqn:Hd; [|done].
    apply Facing2Direction_inv in Hd
      as [[-> _]|[[-> _]|[[-> _]|[[-> _]|[Hin _]]]]]; [| | | |done];
      exfalso; apply Hown; rewrite !elem_of_cons; auto.
Qed.

(** A step along an array of the literal leaves the cell. *)
Lemma move_unit_ne (c : MapCoord.t) (f : string) (d0 d1 x y : Z) :
  Facing2Direction f = Some (Array d0 d1) →
  MapCoord.x c = Some x → MapCoord.y c = Some y →
  MapCoord.move c (Array d0 d1)
  = MapCoord.mk (MapCoord.mapName c) (Some (x + d0)) (Some (y + d1))
  ∧ MapCoord.move c (Array d0 d1) ≠ c.
Proof.
  intros Hd Hx Hy. destruct c as [m cx cy]. simpl in Hx, Hy. subst cx cy.
  split; [done|]. intros Heq.
  apply Facing2Direction_inv in Hd.
  unfold MapCoord.move in Heq. simpl in Heq.
  destruct Hd as [[_ [= -> ->]]|[[_ [= -> ->]]|[[_ [= -> ->]]
                 |[[_ [= -> ->]]|[_ [=]]]]]];
    injection Heq; lia.
Qed.

(** A coordinate inside some cell is a pair of integers. *)
Lemma insideCellSets_numeric (cellSets : list CellSet) (c : MapCoord.t) :
  insideCellSets cellSets c = true →
  ∃ x y, MapCoord.x c = Some x ∧ MapCoord.y c = Some y.
Proof.
  unfold insideCellSets. intros Hin.
  apply existsb_exists in Hin as (cs & _ & Hin).
  apply existsb_exists in Hin as (cell & _ & Hin).
  apply cellContains_spec in Hin as (px & py & Hx & Hy & _). eauto.
Qed.

Section AttackFacts.
Variable BULLET_COOLDOWN : N.

Lemma c2s_attack_outside player mapCoord facing s cellSets :
  Map_get (MapCoord.mapName mapCoord) (arenaOfMaps s) = Some cellSets →
  insideCellSets cellSets mapCoord = false →
  c2s_attack BULLET_COOLDOWN player mapCoord facing s = (s, Return VUndefined).
Proof.
  intros Harena Hout. unfold c2s_attack, insideMap. unfoldM.
  rewrite Harena, Hout. done.
Qed.

Lemma c2s_attack_unknown_map player mapCoord facing s :
  Map_get (MapCoord.mapName mapCoord) (arenaOfMaps s) = None →
  c2s_attack BULLET_COOLDOWN player mapCoord facing s = (s, Throw TypeError).
Proof.
  intros Harena. unfold c2s_attack, insideMap. unfoldM.
  rewrite Harena. done.
Qed.

Lemma c2s_attack_waiting player mapCoord facing s cellSets :
  Map_get (MapCoord.mapName mapCoord) (arenaOfMaps s) = Some cellSets →
  player ∈ cooldown s →
  c2s_attack BULLET_COOLDOWN player mapCoord facing s = (s, Return VUndefined).
Proof.
  intros Harena Hin. unfold c2s_attack, insideMap. unfoldM.
  rewrite Harena. destruct (insideCellSets cellSets mapCoord); simpl; [|done].
  by rewrite bool_decide_eq_true_2.
Qed.

Lemma c2s_attack_permitted player mapCoord facing s cellSets d :
  Map_get (MapCoord.mapName mapCoord) (arenaOfMaps s) = Some cellSets →
  insideCellSets cellSets mapCoord = true →
  player ∉ cooldown s →
  Facing2Direction facing = Some d →
  c2s_attack BULLET_COOLDOWN player mapCoord facing s
  = (fired BULLET_COOLDOWN player mapCoord facing d s, Return (VBool true)).
Proof.
  intros Harena Hin Hfree Hd. unfold c2s_attack, insideMap. unfoldM.
  rewrite Harena, Hin. simpl.
  rewrite bool_decide_eq_false_2 by done. simpl.
  rewrite Hd. reflexivity.
Qed.

Lemma c2s_attack_bad_facing player mapCoord facing s cellSets :
  Map_get (MapCoord.mapName mapCoord) (arenaOfMaps s) = Some cellSets →
  insideCellSets cellSets mapCoord = true →
  player ∉ cooldown s →
  Facing2Direction facing = None →
  c2s_attack BULLET_COOLDOWN player mapCoord facing s
  = (charged BULLET_COOLDOWN player s, Throw TypeError).
Proof.
  intros Harena Hin Hfree Hd. unfold c2s_attack, insideMap. unfoldM.
  rewrite Harena, Hin. simpl.
  rewrite bool_decide_eq_false_2 by done. simpl.
  rewrite Hd. reflexivity.
Qed.

(** The five ways a call ends. *)
Lemma c2s_attack_cases player mapCoord facing s :
  let r := c2s_attack BULLET_COOLDOWN player mapCoord facing s in
  r = (s, Throw TypeError) ∨ r = (s, Return VUndefined)
  ∨ ((player ∉ cooldown s)
     ∧ ((∃ d, Facing2Direction facing = Some d
              ∧ r = (fired BULLET_COOLDOWN player mapCoord facing d s,
                     Return (VBool true)))
        ∨ r = (charged BULLET_COOLDOWN player s, Throw TypeError))).
Proof.
  intros r. subst r.
  destruct (Map_get (MapCoord.mapName mapCoord) (arenaOfMaps s))
    as [cellSets|] eqn:Harena.
  2: { left. by apply c2s_attack_unknown_map. }
  destruct (insideCellSets cellSets mapCoord) eqn:Hin.
  2: { right; left. by apply (c2s_attack_outside _ _ _ _ cellSets). }
  destruct (decide (player ∈ cooldown s)) as [Hw|Hfree].
  { right; left. by apply (c2s_attack_waiting _ _ _ _ cellSets). }
  right; right. split; [done|].
  destruct (Facing2Direction facing) as [d|] eqn:Hd.
  - left. exists d. split; [done|].
    by apply (c2s_attack_permitted _ _ _ _ cellSets).
  - right. by apply (c2s_attack_bad_facing _ _ _ _ cellSets).
Qed.

(** A call returns [true] only along the permitted path. *)
Lemma c2s_attack_true_inv player mapCoord facing s s' :
  c2s_attack BULLET_COOLDOWN player mapCoord facing s
  = (s', Return (VBool true)) →
  ∃ d, (player ∉ cooldown s)
       ∧ Facing2Direction facing = Some d
       ∧ s' = fired BULLET_COOLDOWN player mapCoord facing d s.
Proof.
  intros Hrun.
  destruct (c2s_attack_cases player mapCoord facing s)
    as [H|[H|[Hfree [(d & Hd & H)|H]]]];
    rewrite H in Hrun; try done.
  injection Hrun as <-. by exists d.
Qed.

(** A call that returns [true] came from inside the arena. *)
Lemma c2s_attack_true_inside player mapCoord facing s s' :
  c2s_attack BULLET_COOLDOWN player mapCoord facing s
  = (s', Return (VBool true)) →
  ∃ cellSets,
    Map_get (MapCoord.mapName mapCoord) (arenaOfMaps s) = Some cellSets
    ∧ insideCellSets cellSets mapCoord = true.
Proof.
  intros Hrun.
  destruct (Map_get (MapCoord.mapName mapCoord) (arenaOfMaps s))
    as [cellSets|] eqn:Harena.
  2: { by rewrite c2s_attack_unknown_map in Hrun. }
  exists cellSets. split; [done|].
  destruct (insideCellSets cellSets mapCoord) eqn:Hin; [done|].
  by rewrite (c2s_attack_outside _ _ _ _ cellSets) in Hrun.
Qed.

(** C6: the table maps U to (0,+1), D to (0,-1), R to (+1,0) and L to
    (-1,0).  An attack that returns [true] has an origin C on integer
    coordinates and has registered, under the bullet id it drew, a
    bullet of age 0 at C moved by [Facing2Direction[facing]].  When that
    is an array of the table, the facing is one of U, D, R, L and the
    bullet is at C + unit(D), which is not C.  The only other facings
    with which an attack returns [true] are the names inherited from
    [Object.prototype]; their bullet is at ([NaN], [NaN]). *)
Theorem attack_spawns_one_step_ahead player mapCoord facing s s' :
  c2s_attack BULLET_COOLDOWN player mapCoord facing s = (s', Return (VBool true)) →
  (Facing2Direction "U" = Some (Array 0 1)
   ∧ Facing2Direction "D" = Some (Array 0 (-1))
   ∧ Facing2Direction "R" = Some (Array 1 0)
   ∧ Facing2Direction "L" = Some (Array (-1) 0))
  ∧ ∃ d x y,
      Facing2Direction facing = Some d
      ∧ MapCoord.x mapCoord = Some x ∧ MapCoord.y mapCoord = Some y
      ∧ Map_get (bulletID s) (bullets s')
        = Some {| facing := facing;
                  bulletCoord := MapCoord.move mapCoord d;
                  duration := 0 |}
      ∧ match d with
        | Array d0 d1 =>
            facing ∈ ["U"; "D"; "R"; "L"]
            ∧ MapCoord.move mapCoord d
              = MapCoord.mk (MapCoord.mapName mapCoord)
                  (Some (x + d0)) (Some (y + d1))
            ∧ MapCoord.move mapCoord d ≠ mapCoord
        | Inherited =>
            facing ∈ Object_prototype
            ∧ MapCoord.move mapCoord d
              = MapCoord.mk (MapCoord.mapName mapCoord) None None
        end.
Proof.
  intros Hrun. split; [done|].
  destruct (c2s_attack_true_inside _ _ _ _ _ Hrun) as (cellSets & _ & Hin).
  apply insideCellSets_numeric in Hin as (x & y & Hx & Hy).
  apply c2s_attack_true_inv in Hrun as (d & _ & Hd & ->).
  exists d, x, y. split; [done|]. split; [done|]. split; [done|]. split.
  { simpl. by rewrite Map_get_set_eq. }
  destruct d as [d0 d1|].
  - split; [|by apply (move_unit_ne _ facing)].
    apply Facing2Direction_inv in Hd
      as [[-> _]|[[-> _]|[[-> _]|[[-> _]|[_ [=]]]]]];
      rewrite !elem_of_cons; auto.
  - split.
    + by apply Facing2Direction_inv in Hd
        as [[_ [=]]|[[_ [=]]|[[_ [=]]|[[_ [=]]|[? _]]]]].
    + unfold MapCoord.move. rewrite Hx, Hy. done.
Qed.

(** C7: an attack whose origin lies outside every arena rectangle of
    its map creates no bullet, but it does not return [false]: when the
    map has an entry in [arenaOfMaps] the call ends in a bare [return]
    and yields [undefined]; when the map has no entry, [insideMap]
    iterates [undefined] and the call throws a TypeError. *)
Theorem attack_outside_arena_rejected player mapCoord facing s :
  (∀ cellSets,
     Map_get (MapCoord.mapName mapCoord) (arenaOfMaps s) = Some cellSets →
     insideCellSets cellSets mapCoord = false) →
  let r := c2s_attack BULLET_COOLDOWN player mapCoord facing s in
  bullets r.1 = bullets s
  ∧ r.2 ≠ Return (VBool false)
  ∧ (is_Some (Map_get (MapCoord.mapName mapCoord) (arenaOfMaps s)) →
     r.2 = Return VUndefined)
  ∧ (Map_get (MapCoord.mapName mapCoord) (arenaOfMaps s) = None →
     r.2 = Throw TypeError).
Proof.
  intros Hout r. subst r.
  destruct (Map_get (MapCoord.mapName mapCoord) (arenaOfMaps s))
    as [cellSets|] eqn:Harena.
  - rewrite (c2s_attack_outside _ _ _ _ cellSets) by auto. done.
  - rewrite c2s_attack_unknown_map by done.
    split; [done|]. split; [done|]. split; [|done]. by intros [? ?].
Qed.

(** C10: an attack whose origin lies outside every arena rectangle of
    its map leaves the cooldown set, the bullet registry and the bullet
    id counter as they were; indeed the whole world is unchanged. *)
Theorem attack_outside_arena_frame player mapCoord facing s :
  (∀ cellSets,
     Map_get (MapCoord.mapName mapCoord) (arenaOfMaps s) = Some cellSets →
     insideCellSets cellSets mapCoord = false) →
  let s' := (c2s_attack BULLET_COOLDOWN player mapCoord facing s).1 in
  cooldown s' = cooldown s ∧ bullets s' = bullets s
  ∧ bulletID s' = bulletID s ∧ s' = s.
Proof.
  intros Hout.
  destruct (Map_get (MapCoord.mapName mapCoord) (arenaOfMaps s))
    as [cellSets|] eqn:Harena.
  - rewrite (c2s_attack_outside _ _ _ _ cellSets) by auto. done.
  - rewrite c2s_attack_unknown_map by done. done.
Qed.
End AttackFacts.

(** * The hazard reactor *)

(** C9: for an update with a string player id and a coordinate, the
    handler looks the cell up on the bullet layer first; on a hit it
    relocates the player to (1,1) on the coordinate's map and makes no
    further lookup; otherwise it looks the cell up on the fire layer and
    relocates on a hit.  The bullet registry and the timers are never
    touched. *)
Theorem onPlayerUpdate_layer_order (env : Env) (playerID : string)
    (c : MapCoord.t) (s : World) :
  let msg := {| msg_mapCoord := VCoord c; msg_playerID := VStr playerID |} in
  let relocate :=
    helper_teleport playerID
      (MapCoord.mk (MapCoord.mapName c) (Some 1) (Some 1)) true in
  let s' := (onPlayerUpdate env msg s).1 in
  bullets s' = bullets s
  ∧ timers s' = timers s
  ∧ log s' = log s ++
      match cellOccupied env (VCoord c) LAYER_BULLET with
      | Some true => [getCell (VCoord c) LAYER_BULLET; relocate]
      | Some false =>
          getCell (VCoord c) LAYER_BULLET :: getCell (VCoord c) LAYER_FIRE ::
          match cellOccupied env (VCoord c) LAYER_FIRE with
          | Some true => [relocate]
          | _ => []
          end
      | None => [getCell (VCoord c) LAYER_BULLET]
      end.
Proof.
  intros msg relocate s'. subst s' msg relocate.
  unfold onPlayerUpdate, askCell, teleport. unfoldM. simpl.
  destruct (cellOccupied env (VCoord c) LAYER_BULLET) as [[|]|]; simpl;
    [| destruct (cellOccupied env (VCoord c) LAYER_FIRE) as [[|]|]; simpl |];
    rewrite <- ?app_assoc; done.
Qed.

Lemma onPlayerUpdate_non_string (env : Env) (msg : PlayerSyncMessage)
    (s : World) :
  is_string (msg_playerID msg) = false →
  onPlayerUpdate env msg s
  = (add_log (console_warn
                "Invalid PlayerSyncMessage with non-string msg.playerID") s,
     Return ()).
Proof.
  unfold onPlayerUpdate. destruct (msg_playerID msg); simpl; done.
Qed.

(** An event without a coordinate ([mapCoord] is [undefined]) passes the
    test against the string ['undefined'] and reaches the bullet-layer
    lookup; nothing is logged. *)
Lemma onPlayerUpdate_absent_coord (env : Env)
    (playerID : string) (s : World) :
  let msg := {| msg_mapCoord := VUndefined; msg_playerID := VStr playerID |} in
  ∃ rest,
    log (onPlayerUpdate env msg s).1
    = log s ++ getCell VUndefined LAYER_BULLET :: rest
    ∧ (∀ what, console_warn what ∉ getCell VUndefined LAYER_BULLET :: rest)
    ∧ (cellOccupied env VUndefined LAYER_BULLET = None →
       onPlayerUpdate env msg s
       = (add_log (getCell VUndefined LAYER_BULLET) s, Throw TypeError)
       ∧ playerUpdateListener env msg s
         = (add_log unhandledRejection
              (add_log (getCell VUndefined LAYER_BULLET) s), Return ())).
Proof.
  intros msg. subst msg.
  unfold playerUpdateListener, onPlayerUpdate, askCell, teleport. unfoldM. simpl.
  destruct (cellOccupied env VUndefined LAYER_BULLET) as [[|]|]; simpl.
  - exists []. split; [done|]. split; [|done].
    intros what Hin. apply list_elem_of_singleton in Hin. done.
  - destruct (cellOccupied env VUndefined LAYER_FIRE) as [[|]|]; simpl;
      (exists [getCell VUndefined LAYER_FIRE]; split;
         [by rewrite <- app_assoc|]; split; [|done];
       intros what Hin; apply elem_of_cons in Hin as [Hin|Hin]; [done|];
       apply list_elem_of_singleton in Hin; done).
  - exists []. split; [done|]. split; [|done].
    intros what Hin. apply list_elem_of_singleton in Hin. done.
Qed.

(** * Frames of handlers *)

Section Preserves.
Context (R : relation World) `{!PreOrder R}.

Lemma preserves_ret {A} (a : A) : preserves R (mret a).
Proof. intros s. simpl. reflexivity. Qed.

Lemma preserves_throw {A} (e : JsError) : preserves R (@throw A e).
Proof. intros s. simpl. reflexivity. Qed.

Lemma preserves_gets {A} (f : World → A) : preserves R (gets f).
Proof. intros s. simpl. reflexivity. Qed.

Lemma preserves_modify (f : World → World) :
  (∀ s, R s (f s)) → preserves R (modify f).
Proof. intros Hf s. apply Hf. Qed.

Lemma preserves_bind {A B} (m : M A) (f : A → M B) :
  preserves R m → (∀ a, preserves R (f a)) → preserves R (m ≫= f).
Proof.
  intros Hm Hf s. unfold mbind, M_bind.
  specialize (Hm s). destruct (m s) as [s1 [a|e]]; simpl in *.
  - etrans; [exact Hm | apply Hf].
  - exact Hm.
Qed.

Lemma preserves_forEach {A} (body : A → M unit) (l : list A) :
  (∀ a, preserves R (body a)) → preserves R (forEach body l).
Proof.
  intros Hbody. induction l as [|a l IH]; simpl.
  - apply preserves_ret.
  - apply preserves_bind; auto.
Qed.
End Preserves.

(** Walks the structure of a handler; what is left are the updates of
    the world, one goal [R s (f s)] each. *)
Ltac frame_step :=
  lazymatch goal with
  | |- PreOrder _ => apply _
  | |- ∀ _, _ => intros ?
  | |- preserves _ (mret _) => apply preserves_ret
  | |- preserves _ (throw _) => apply preserves_throw
  | |- preserves _ (gets _) => apply preserves_gets
  | |- preserves _ (emit _) => unfold emit
  | |- preserves _ (modify _) => apply preserves_modify
  | |- preserves _ (_ ≫= _) => apply preserves_bind
  | |- preserves _ (forEach _ _) => apply preserves_forEach
  | |- preserves _ (match ?x with _ => _ end) => destruct x
  | |- preserves _ (teleport _ _) => unfold teleport
  | |- preserves _ (askCell _ _ _) => unfold askCell
  | |- preserves _ (insideMap _) => unfold insideMap
  | |- preserves _ (broadcastBullets _) => unfold broadcastBullets
  | |- preserves _ (clearInterval _) => unfold clearInterval
  | |- preserves _ (terminated _ _) => unfold terminated
  | |- preserves _ (hitScan _ _ _) => unfold hitScan
  | |- preserves _ (fireScan _ _) => unfold fireScan
  | |- preserves _ (afterMove _ _ _ _ _) => unfold afterMove
  end.
Ltac frame := repeat frame_step.

Global Instance shrunk_preorder : PreOrder shrunk.
Proof.
  split.
  - intros s k. by right.
  - intros s1 s2 s3 H12 H23 k.
    destruct (H23 k) as [Hk|Hk]; [by left|]. rewrite Hk. apply H12.
Qed.

Lemma shrunk_same s s' : bullets s' = bullets s → shrunk s s'.
Proof. intros Heq k. right. by rewrite Heq. Qed.

Lemma shrunk_delete id s : shrunk s (set_bullets (Map_delete id) s).
Proof.
  intros k. simpl. destruct (decide (id = k)) as [->|Hne].
  - left. apply Map_get_delete_eq.
  - right. by apply Map_get_delete_ne.
Qed.

Global Instance logged_preorder : PreOrder logged.
Proof.
  split.
  - intros s. exists []. by rewrite app_nil_r.
  - intros s1 s2 s3 [r1 H1] [r2 H2]. exists (r1 ++ r2).
    by rewrite H2, H1, app_assoc.
Qed.

Lemma logged_same s s' : log s' = log s → logged s s'.
Proof. intros Heq. exists []. by rewrite app_nil_r. Qed.

Lemma logged_add_log e s : logged s (add_log e s).
Proof. by exists [e]. Qed.

Lemma Map_delete_idemp {V} (k : nat) (m : list (nat * V)) :
  Map_delete k (Map_delete k m) = Map_delete k m.
Proof.
  unfold Map_delete. induction m as [|[k' v] m IH]; [done|].
  rewrite filter_cons. destruct (decide ((k', v).1 ≠ k)) as [Hne|Heq].
  - rewrite filter_cons. rewrite decide_True by done. by rewrite IH.
  - exact IH.
Qed.

Global Instance calm_preorder self : PreOrder (calm self).
Proof.
  split.
  - intros s. repeat split. by left.
  - intros s1 s2 s3 (Hc1 & Hn1 & Ht1) (Hc2 & Hn2 & Ht2).
    split; [congruence|]. split; [congruence|].
    destruct Ht2 as [->| ->], Ht1 as [->| ->]; auto.
    right. apply Map_delete_idemp.
Qed.

Lemma calm_same self s s' :
  cooldown s' = cooldown s → nextTimer s' = nextTimer s →
  timers s' = timers s → calm self s s'.
Proof. intros. repeat split; auto. Qed.

Lemma calm_clear self s :
  calm self s (set_timers (Map_delete self (timers s)) (nextTimer s) s).
Proof. repeat split. by right. Qed.

(** [hitScan] and the loop over it do not throw. *)
Lemma hitScan_returns self tickY p s : (hitScan self tickY p s).2 = Return ().
Proof.
  unfold hitScan, teleport, clearInterval. unfoldM.
  destruct (firstHit p.2 tickY (bullets s)); done.
Qed.

Lemma forEach_hitScan_returns self tickY ps s :
  (forEach (hitScan self tickY) ps s).2 = Return ().
Proof.
  revert s. induction ps as [|p ps IH]; intros s; simpl; [done|].
  unfold mbind, M_bind.
  pose proof (hitScan_returns self tickY p s) as Hp.
  destruct (hitScan self tickY p s) as [s1 r]. simpl in Hp. subst r. apply IH.
Qed.

Lemma hitScan_shrunk self tickY p : preserves shrunk (hitScan self tickY p).
Proof. frame; (by apply shrunk_same) || apply shrunk_delete. Qed.

Lemma hitScan_logged self tickY p : preserves logged (hitScan self tickY p).
Proof. frame; apply logged_add_log || by apply logged_same. Qed.

Lemma afterMove_shrunk env self bid mapName bullet :
  preserves shrunk (afterMove env self bid mapName bullet).
Proof.
  frame; try ((by apply shrunk_same) || apply shrunk_delete).
Qed.

Lemma afterMove_calm env self bid mapName bullet :
  preserves (calm self) (afterMove env self bid mapName bullet).
Proof.
  frame; try ((by apply calm_same) || apply calm_clear).
Qed.

Lemma updateBullet_tick_calm env self bid mapName :
  preserves (calm self) (updateBullet_tick env self bid mapName).
Proof.
  unfold updateBullet_tick.
  frame; try ((by apply calm_same) || apply calm_clear).
Qed.

Lemma updateMap_loop_calm env self mapNames :
  preserves (calm self) (updateMap_loop env self mapNames).
Proof.
  induction mapNames as [|mapName rest IH]; simpl.
  - frame.
  - frame; try ((by apply calm_same) || apply calm_clear || apply IH).
Qed.

Lemma updateMap_tick_calm env self :
  preserves (calm self) (updateMap_tick env self).
Proof.
  unfold updateMap_tick. frame; try by apply calm_same.
  apply updateMap_loop_calm.
Qed.

Lemma onPlayerUpdate_calm env msg self :
  preserves (calm self) (onPlayerUpdate env msg).
Proof.
  unfold onPlayerUpdate. frame; by apply calm_same.
Qed.

Lemma playerUpdateListener_calm env msg self :
  preserves (calm self) (playerUpdateListener env msg).
Proof.
  intros s. unfold playerUpdateListener.
  pose proof (onPlayerUpdate_calm env msg self s) as Hc.
  destruct (onPlayerUpdate env msg s) as [s' [?|?]]; simpl in *; [done|].
  etrans; [exact Hc|]. by apply calm_same.
Qed.

Lemma onPlayerUpdate_shrunk env msg :
  preserves shrunk (onPlayerUpdate env msg).
Proof.
  unfold onPlayerUpdate. frame; by apply shrunk_same.
Qed.

Lemma updateMap_loop_shrunk env self mapNames :
  preserves shrunk (updateMap_loop env self mapNames).
Proof.
  induction mapNames as [|mapName rest IH]; simpl.
  - frame.
  - frame; try ((by apply shrunk_same) || apply IH).
Qed.

Lemma updateMap_tick_shrunk env self :
  preserves shrunk (updateMap_tick env self).
Proof.
  unfold updateMap_tick. frame; try by apply shrunk_same.
  apply updateMap_loop_shrunk.
Qed.

(** * The bullet interval *)

Lemma young_shrunk s s' : young s → shrunk s s' → young s'.
Proof.
  intros Hy Hs k b Hk. destruct (Hs k) as [Hn|He]; [congruence|].
  rewrite He in Hk. by apply (Hy k).
Qed.

Lemma shrunk_delete_bullets id s s' :
  bullets s' = Map_delete id (bullets s) → shrunk s s'.
Proof.
  intros Heq k. rewrite Heq. destruct (decide (id = k)) as [->|Hne].
  - left. apply Map_get_delete_eq.
  - right. by apply Map_get_delete_ne.
Qed.

Lemma terminated_old env bullet s :
  BULLET_LIFE ≤ duration bullet → terminated env bullet s = (s, Return true).
Proof.
  intros Hold. unfold terminated. by rewrite (proj2 (Z.leb_le _ _) Hold).
Qed.

Lemma terminated_outside env bullet s cellSets :
  duration bullet < BULLET_LIFE →
  Map_get (MapCoord.mapName (bulletCoord bullet)) (arenaOfMaps s)
  = Some cellSets →
  insideCellSets cellSets (bulletCoord bullet) = false →
  terminated env bullet s = (s, Return true).
Proof.
  intros Hyoung Harena Hout. unfold terminated, insideMap. unfoldM.
  rewrite (proj2 (Z.leb_gt _ _) Hyoung), Harena, Hout. done.
Qed.

Lemma terminated_inside env bullet s cellSets :
  duration bullet < BULLET_LIFE →
  Map_get (MapCoord.mapName (bulletCoord bullet)) (arenaOfMaps s)
  = Some cellSets →
  insideCellSets cellSets (bulletCoord bullet) = true →
  terminated env bullet s
  = (add_log (getCell (VCoord (bulletCoord bullet)) LAYER_OBSTACLE) s,
     match cellOccupied env (VCoord (bulletCoord bullet)) LAYER_OBSTACLE with
     | Some b => Return b
     | None => Throw TypeError
     end).
Proof.
  intros Hyoung Harena Hin. unfold terminated, insideMap, askCell. unfoldM.
  rewrite (proj2 (Z.leb_gt _ _) Hyoung), Harena, Hin. simpl.
  by destruct (cellOccupied _ _ _).
Qed.

Lemma add_logs (asked : list Effect) (s : World) :
  fold_left (λ s e, add_log e s) asked s
  = mkWorld (arenaOfMaps s) (bullets s) (bulletID s) (fires s) (cooldown s)
      (fireCounter s) (timers s) (nextTimer s) (log s ++ asked).
Proof.
  revert s. induction asked as [|e asked IH]; intros s; simpl.
  - rewrite app_nil_r. by destruct s.
  - rewrite IH. unfoldW. by rewrite <- app_assoc.
Qed.

(** The first branch of the callback, after the calls [asked]. *)
Lemma drop_bullet self bid mapName moved asked s :
  (clearInterval self;;
   modify (set_bullets (Map_delete bid));;
   broadcastBullets mapName)
    (fold_left (λ s e, add_log e s) asked (set_bullets (Map_set bid moved) s))
  = (dropped self bid mapName asked s, Return ()).
Proof.
  unfold clearInterval, broadcastBullets, dropped. unfoldM.
  rewrite add_logs. unfoldW. by rewrite Map_delete_set.
Qed.

Lemma tick_start env self bid mapName s bullet d :
  Map_get bid (bullets s) = Some bullet →
  Facing2Direction (facing bullet) = Some d →
  updateBullet_tick env self bid mapName s
  = afterMove env self bid mapName (advance bullet d)
      (set_bullets (Map_set bid (advance bullet d)) s).
Proof.
  intros Hget Hd. unfold updateBullet_tick. unfoldM. by rewrite Hget, Hd.
Qed.

Lemma tick_old env self bid mapName s bullet d :
  Map_get bid (bullets s) = Some bullet →
  Facing2Direction (facing bullet) = Some d →
  BULLET_LIFE ≤ duration (advance bullet d) →
  updateBullet_tick env self bid mapName s
  = (dropped self bid mapName [] s, Return ()).
Proof.
  intros Hget Hd Hold. rewrite (tick_start _ _ _ _ _ bullet d) by done.
  unfold afterMove. unfold mbind at 1. unfold M_bind at 1.
  rewrite terminated_old by done. apply (drop_bullet _ _ _ _ []).
Qed.

(** A tick leaves no bullet of age [BULLET_LIFE] or more behind. *)
Lemma updateBullet_tick_young env self bid mapName s :
  young s → young (updateBullet_tick env self bid mapName s).1.
Proof.
  intros Hy.
  destruct (Map_get bid (bullets s)) as [bullet|] eqn:Hget.
  2: { unfold updateBullet_tick. unfoldM. by rewrite Hget. }
  destruct (Facing2Direction (facing bullet)) as [d|] eqn:Hd.
  2: { unfold updateBullet_tick. unfoldM. by rewrite Hget, Hd. }
  destruct (Z.le_gt_cases BULLET_LIFE (duration (advance bullet d)))
    as [Hold|Hyoung].
  - rewrite (tick_old _ _ _ _ _ bullet d) by done.
    eapply young_shrunk; [exact Hy|]. by apply (shrunk_delete_bullets bid).
  - rewrite (tick_start _ _ _ _ _ bullet d) by done.
    eapply young_shrunk; [|apply afterMove_shrunk].
    intros k b. cbn [bullets set_bullets].
    destruct (decide (bid = k)) as [->|Hne].
    + rewrite Map_get_set_eq. intros [= <-]. lia.
    + rewrite Map_get_set_ne by done. apply Hy.
Qed.

(** C5: a tick of a registered bullet moves it by what
    [Facing2Direction] holds for its facing (for U, D, R, L the unit
    vector, added to integer coordinates) and adds 1 to its age.  If
    the new age has reached [BULLET_LIFE] the bullet is dropped at once,
    with no lookup and no
    player scan; else if the new cell is outside the arena it is
    dropped, again without lookup; else the obstacle layer is asked and
    on a hit the bullet is dropped without a player scan; only otherwise
    are the players fetched and scanned, after which the bullet, if
    still registered, is the moved one.  Ages below [BULLET_LIFE] stay
    below it, so no bullet outlives the tick on which its age reaches
    the lifetime. *)
Theorem updateBullet_tick_lifecycle (env : Env) (self bid : nat)
    (mapName : string) (s : World) (bullet : Bullet) (d : Direction) :
  Map_get bid (bullets s) = Some bullet →
  Facing2Direction (facing bullet) = Some d →
  let moved := advance bullet d in
  let here := VCoord (bulletCoord moved) in
  let tick := updateBullet_tick env self bid mapName s in
  bulletCoord moved
  = MapCoord.mk (MapCoord.mapName (bulletCoord bullet))
      (js_add (MapCoord.x (bulletCoord bullet)) (index d 0))
      (js_add (MapCoord.y (bulletCoord bullet)) (index d 1))
  ∧ (∀ m x y d0 d1,
       bulletCoord bullet = MapCoord.mk m (Some x) (Some y) →
       d = Array d0 d1 →
       bulletCoord moved = MapCoord.mk m (Some (x + d0)) (Some (y + d1)))
  ∧ duration moved = duration bullet + 1
  ∧ Map_get bid (bullets (dropped self bid mapName [] s)) = None
  ∧ (BULLET_LIFE ≤ duration moved →
     tick = (dropped self bid mapName [] s, Return ()))
  ∧ (duration moved < BULLET_LIFE →
     ∀ cellSets,
       Map_get (MapCoord.mapName (bulletCoord moved)) (arenaOfMaps s)
       = Some cellSets →
       (insideCellSets cellSets (bulletCoord moved) = false →
        tick = (dropped self bid mapName [] s, Return ()))
       ∧ (insideCellSets cellSets (bulletCoord moved) = true →
          (cellOccupied env here LAYER_OBSTACLE = Some true →
           tick = (dropped self bid mapName [getCell here LAYER_OBSTACLE] s,
                   Return ()))
          ∧ (cellOccupied env here LAYER_OBSTACLE = Some false →
             tick.2 = Return ()
             ∧ (∃ rest, log tick.1
                        = log s ++ getCell here LAYER_OBSTACLE
                                   :: getPlayers :: rest)
             ∧ (Map_get bid (bullets tick.1) = Some moved
                ∨ Map_get bid (bullets tick.1) = None))))
  ∧ (young s → young tick.1).
Proof.
  intros Hget Hd moved here tick.
  split; [done|].
  split; [intros m x y d0 d1 Hc ->; subst moved; simpl; by rewrite Hc|].
  split; [done|]. split; [apply Map_get_delete_eq|].
  set (s0 := set_bullets (Map_set bid moved) s).
  assert (Hstart : tick = afterMove env self bid mapName moved s0)
    by by apply tick_start.
  split; [by apply tick_old|]. split; [|apply updateBullet_tick_young].
  intros Hyoung cellSets Harena. unfold afterMove in Hstart.
  unfold mbind in Hstart at 1. unfold M_bind in Hstart at 1.
  split; [|intros Hin; split].
  - intros Hout.
    rewrite (terminated_outside _ _ _ cellSets) in Hstart by done.
    rewrite Hstart. apply (drop_bullet _ _ _ _ []).
  - intros Hocc.
    rewrite (terminated_inside _ _ _ cellSets) in Hstart by done.
    fold here in Hstart. rewrite Hocc in Hstart.
    rewrite Hstart. apply (drop_bullet _ _ _ _ [getCell here LAYER_OBSTACLE]).
  - intros Hocc.
    rewrite (terminated_inside _ _ _ cellSets) in Hstart by done.
    fold here in Hstart. rewrite Hocc in Hstart.
    set (tickY := MapCoord.y (bulletCoord moved)) in *.
    set (s1 := add_log getPlayers (add_log (getCell here LAYER_OBSTACLE) s0)).
    pose proof (forEach_hitScan_returns self tickY (players env) s1) as Hret.
    pose proof (preserves_forEach shrunk (hitScan self tickY) (players env)
                  (hitScan_shrunk self tickY) s1) as Hshr.
    pose proof (preserves_forEach logged (hitScan self tickY) (players env)
                  (hitScan_logged self tickY) s1) as [rest Hlog].
    unfold broadcastBullets in Hstart.
    unfold mbind, M_bind, emit, gets, modify in Hstart. fold s1 in Hstart.
    destruct (forEach _ (players env) s1) as [s2 r].
    simpl in Hret, Hshr, Hlog. subst r. rewrite Hstart.
    split; [done|]. split.
    + eexists. cbn [fst log add_log]. rewrite Hlog. subst s1.
      cbn [log add_log]. rewrite <- !app_assoc. reflexivity.
    + destruct (Hshr bid) as [Hk|Hk]; [by right|left].
      cbn [fst bullets add_log]. rewrite Hk. subst s1 s0.
      cbn [bullets add_log set_bullets]. apply Map_get_set_eq.
Qed.

(** * Timers and the cooldown gate *)

Lemma elem_of_Map_delete {V} (id k : nat) (v : V) (m : list (nat * V)) :
  (k, v) ∈ Map_delete id m ↔ (k, v) ∈ m ∧ k ≠ id.
Proof. unfold Map_delete. rewrite list_elem_of_filter. simpl. tauto. Qed.

Lemma NoDup_Map_delete {V} (id : nat) (m : list (nat * V)) :
  NoDup m.*1 → NoDup (Map_delete id m).*1.
Proof.
  unfold Map_delete. induction m as [|[k v] m IH]; simpl; [done|].
  rewrite NoDup_cons. intros [Hk Hm]. rewrite filter_cons. simpl.
  destruct (decide (k ≠ id)); [|auto].
  simpl. apply NoDup_cons. split; [|auto].
  intros Hin. apply Hk. apply list_elem_of_fmap in Hin as [[k' v'] [-> Hin]].
  apply list_elem_of_filter in Hin as [_ Hin].
  by apply (list_elem_of_fmap_2 fst) in Hin.
Qed.

Lemma Map_get_NoDup {V} (k : nat) (v : V) (m : list (nat * V)) :
  NoDup m.*1 → (k, v) ∈ m → Map_get k m = Some v.
Proof.
  induction m as [|[k' v'] m IH]; simpl.
  - intros _ Hin. by apply elem_of_nil in Hin.
  - rewrite NoDup_cons. intros [Hk Hm] Hin.
    apply elem_of_cons in Hin as [[= <- <-]|Hin].
    + by rewrite decide_True.
    + rewrite decide_False; [auto|].
      intros <-. apply Hk. by apply (list_elem_of_fmap_2 fst) in Hin.
Qed.

Lemma timers_wf_calm self s s' : timers_wf s → calm self s s' → timers_wf s'.
Proof.
  intros [Hb Hn Hh Hs] (Hc & Hnext & Ht).
  assert (Hsub : ∀ id t, (id, t) ∈ timers s' → (id, t) ∈ timers s).
  { intros id t. destruct Ht as [->| ->]; [done|].
    rewrite elem_of_Map_delete. tauto. }
  split.
  - intros id t Hin. rewrite Hnext. eauto.
  - destruct Ht as [->| ->]; [done|]. by apply NoDup_Map_delete.
  - intros id t q Hin Hcb. rewrite Hc. eauto.
  - intros id1 t1 id2 t2 q H1 H2. eauto.
Qed.

(** Appending a timer under the next handle. *)
Lemma timers_wf_push s s' t :
  timers_wf s →
  timers s' = timers s ++ [(nextTimer s, t)] →
  nextTimer s' = S (nextTimer s) →
  cooldown s ⊆ cooldown s' →
  (∀ q, callback t = cooldown_delete q →
        (q ∉ cooldown s) ∧ q ∈ cooldown s' ∧ repeating t = false) →
  timers_wf s'.
Proof.
  intros [Hb Hn Hh Hs] Ht Hnext Hc Hnew.
  assert (Hin : ∀ id t', (id, t') ∈ timers s' →
                (id, t') ∈ timers s ∨ (id = nextTimer s ∧ t' = t)).
  { intros id t'. rewrite Ht, elem_of_app, list_elem_of_singleton.
    intros [?|[= -> ->]]; auto. }
  split.
  - intros id t' [Hold|[-> _]]%Hin; rewrite Hnext; [|lia].
    apply Hb in Hold. lia.
  - rewrite Ht, fmap_app. apply NoDup_app. split; [done|]. split.
    + intros id Hid. simpl. rewrite list_elem_of_singleton. intros ->.
      apply list_elem_of_fmap in Hid as [[id t'] [Heq Hid]]. simpl in Heq.
      subst id. apply Hb in Hid. lia.
    + apply NoDup_singleton.
  - intros id t' q [Hold|[-> ->]]%Hin Hcb.
    + destruct (Hh _ _ _ Hold Hcb). split; [by apply Hc|done].
    + destruct (Hnew _ Hcb) as (_ & ? & ?). done.
  - intros id1 t1 id2 t2 q [H1|[-> ->]]%Hin [H2|[-> ->]]%Hin Hc1 Hc2.
    + eauto.
    + destruct (Hnew _ Hc2) as (Hfree & _). by destruct (Hh _ _ _ H1 Hc1).
    + destruct (Hnew _ Hc1) as (Hfree & _). by destruct (Hh _ _ _ H2 Hc2).
    + done.
Qed.

Section Gate.
Variable BULLET_COOLDOWN : N.

Lemma timers_wf_charged player s :
  timers_wf s → player ∉ cooldown s →
  timers_wf (charged BULLET_COOLDOWN player s).
Proof.
  intros Hwf Hfree. eapply timers_wf_push; [exact Hwf|done|done| |].
  - simpl. apply union_subseteq_r.
  - simpl. intros q [= <-]. split; [done|]. split; [|done].
    apply elem_of_union_l. by apply elem_of_singleton.
Qed.

Lemma timers_wf_fired player mapCoord facing d s :
  timers_wf s → player ∉ cooldown s →
  timers_wf (fired BULLET_COOLDOWN player mapCoord facing d s).
Proof.
  intros Hwf Hfree.
  eapply (timers_wf_push (charged BULLET_COOLDOWN player s));
    [by apply timers_wf_charged|done|done|done|]. done.
Qed.

Lemma timers_wf_released id q s t :
  timers_wf s → (id, t) ∈ timers s → callback t = cooldown_delete q →
  timers_wf (released id q s).
Proof.
  intros [Hb Hn Hh Hs] Hin Hcb.
  assert (Hsub : ∀ id' t', (id', t') ∈ timers (released id q s) →
                   (id', t') ∈ timers s ∧ id' ≠ id).
  { intros id' t'. simpl. by rewrite elem_of_Map_delete. }
  split.
  - intros id' t' [H' _]%Hsub. simpl. eauto.
  - simpl. by apply NoDup_Map_delete.
  - intros id' t' q' [H' Hne]%Hsub Hcb'. simpl.
    destruct (Hh _ _ _ H' Hcb') as [Hq' Hrep]. split; [|done].
    apply elem_of_difference. split; [done|].
    rewrite elem_of_singleton. intros ->. apply Hne. eauto.
  - intros id1 t1 id2 t2 q' [H1 _]%Hsub [H2 _]%Hsub. eauto.
Qed.

Lemma fireTimer_idle env id s :
  Map_get id (timers s) = None → fireTimer env id s = (s, Return ()).
Proof. intros Hget. unfold fireTimer. unfoldM. by rewrite Hget. Qed.

Lemma fireTimer_release env id s t q :
  Map_get id (timers s) = Some t →
  callback t = cooldown_delete q → repeating t = false →
  fireTimer env id s = (released id q s, Return ()).
Proof.
  intros Hget Hcb Hrep. unfold fireTimer, clearInterval. unfoldM.
  rewrite Hget, Hrep. simpl. by rewrite Hcb.
Qed.

Lemma fireTimer_calm env id s t :
  Map_get id (timers s) = Some t →
  (∀ q, callback t ≠ cooldown_delete q) →
  calm id s (fireTimer env id s).1.
Proof.
  intros Hget Hcb.
  assert (Hpre : preserves (calm id)
            ((if repeating t then mret () else clearInterval id);;
             runCallback env id (callback t))).
  { apply preserves_bind; [apply _| |intros _].
    - destruct (repeating t); frame. apply calm_clear.
    - destruct (callback t) as [q| |]; simpl.
      + by destruct (Hcb q).
      + apply updateBullet_tick_calm.
      + apply updateMap_tick_calm. }
  specialize (Hpre s). unfold fireTimer. unfoldM.
  rewrite Hget. exact Hpre.
Qed.

Lemma onPlayerUpdate_timers env msg s :
  timers (playerUpdateListener env msg s).1 = timers s.
Proof.
  unfold playerUpdateListener, onPlayerUpdate, askCell, teleport. unfoldM.
  destruct (msg_playerID msg); try done.
  destruct (strict_eq_str _ _); [done|].
  destruct (cellOccupied env _ LAYER_BULLET) as [[|]|]; simpl;
    [destruct (msg_mapCoord msg); done | |done].
  destruct (cellOccupied env _ LAYER_FIRE) as [[|]|]; simpl;
    [destruct (msg_mapCoord msg); done |done|done].
Qed.

Lemma calm_unhandled id s s' :
  calm id s s' → calm id s (add_log unhandledRejection s').
Proof. intros H. etrans; [exact H|]. by apply calm_same. Qed.

(** What a step does to the gate: nothing, a new entry with its
    timeout, or the release of an entry by its timeout. *)
Lemma step_cases s ev :
  timers_wf s →
  let s' := step BULLET_COOLDOWN s ev in
  (∃ id, calm id s s' ∧ (timers s' = timers s ∨ ev.2 = TimerFires id))
  ∨ (∃ player c f d,
       ev.2 = Attack player c f
       ∧ (player ∉ cooldown s)
       ∧ (s' = fired BULLET_COOLDOWN player c f d s
          ∨ s' = charged BULLET_COOLDOWN player s))
  ∨ (∃ id t q, ev.2 = TimerFires id ∧ (id, t) ∈ timers s
               ∧ callback t = cooldown_delete q
               ∧ s' = released id q s).
Proof.
  intros Hwf s'. subst s'. destruct ev as [env [player c f|id|msg]];
    unfold step; simpl.
  - destruct (c2s_attack_cases BULLET_COOLDOWN player c f s)
      as [H|[H|[Hfree [(d & Hd & H)|H]]]]; rewrite H; simpl.
    + left. exists 0%nat. split; [reflexivity|by left].
    + left. exists 0%nat. split; [reflexivity|by left].
    + right; left. exists player, c, f, d. auto.
    + right; left. exists player, c, f, Inherited. auto.
  - destruct (Map_get id (timers s)) as [t|] eqn:Hget.
    + pose proof (Map_get_Some_elem _ _ _ Hget) as Hin.
      assert (Hquiet : (∀ q, callback t ≠ cooldown_delete q) →
                calm id s
                  match fireTimer env id s with
                  | (s', Return _) => s'
                  | (s', Throw _) => add_log unhandledRejection s'
                  end).
      { intros Hcb.
        pose proof (fireTimer_calm env id s t Hget Hcb) as Hc.
        destruct (fireTimer env id s) as [s' [?|?]]; simpl in *;
          [exact Hc | by apply calm_unhandled]. }
      destruct (callback t) as [q| |] eqn:Hcb.
      * right; right. exists id, t, q.
        destruct (wf_held s Hwf _ _ _ Hin Hcb) as [_ Hrep].
        rewrite (fireTimer_release env id s t q) by done. done.
      * left. exists id. split; [by apply Hquiet|by right].
      * left. exists id. split; [by apply Hquiet|by right].
    + rewrite fireTimer_idle by done. left. exists 0%nat.
      split; [reflexivity|by left].
  - left. exists 0%nat. split; [|left; apply onPlayerUpdate_timers].
    apply playerUpdateListener_calm.
Qed.

Lemma step_timers_wf s ev :
  timers_wf s → timers_wf (step BULLET_COOLDOWN s ev).
Proof.
  intros Hwf.
  destruct (step_cases s ev Hwf)
    as [(id & Hc & _)|[(p & c & f & d & _ & Hfree & [-> | ->])
                      |(id & t & q & _ & Hin & Hcb & ->)]].
  - by apply (timers_wf_calm id s).
  - by apply timers_wf_fired.
  - by apply timers_wf_charged.
  - by apply (timers_wf_released id q s t).
Qed.

Lemma run_snoc evs ev s :
  run BULLET_COOLDOWN (evs ++ [ev]) s
  = step BULLET_COOLDOWN (run BULLET_COOLDOWN evs s) ev.
Proof. unfold run. by rewrite fold_left_app. Qed.

Lemma run_timers_wf evs s :
  timers_wf s → timers_wf (run BULLET_COOLDOWN evs s).
Proof.
  intros Hwf. induction evs as [|ev evs IH] using rev_ind; [done|].
  rewrite run_snoc. by apply step_timers_wf.
Qed.

Lemma initialize_gate arena :
  cooldown (initialize arena) = ∅
  ∧ nextTimer (initialize arena) = 1%nat
  ∧ timers (initialize arena)
    = [(0%nat, {| callback := updateMap; delay := MAP_UPDATE_PERIOD;
                  repeating := true |})].
Proof.
  unfold initialize.
  set (s := mkWorld arena [] 0 [] ∅ 0 [] 0 []).
  assert (Hpre : preserves (calm 0) (forEach announce (Map_keys arena))).
  { unfold announce. frame; by apply calm_same. }
  assert (Hret : ∀ l s0, (forEach announce l s0).2 = Return ()).
  { clear. induction l as [|a l IH]; intros s0; [done|]. simpl.
    unfold announce at 1. unfoldM. apply IH. }
  specialize (Hpre s). specialize (Hret (Map_keys arena) s).
  unfold setInterval, setTimer, mbind, M_bind.
  destruct (forEach announce (Map_keys arena) s) as [s1 r].
  simpl in Hret. subst r. simpl in *. destruct Hpre as (Hc & Hn & Ht).
  rewrite Hc, Hn. by destruct Ht as [->| ->].
Qed.

Lemma initialize_timers_wf arena : timers_wf (initialize arena).
Proof.
  destruct (initialize_gate arena) as (Hc & Hn & Ht).
  split; rewrite ?Ht, ?Hn, ?Hc.
  - intros id t [= -> ->]%list_elem_of_singleton. lia.
  - simpl. apply NoDup_singleton.
  - intros id t q [= -> ->]%list_elem_of_singleton. done.
  - intros id1 t1 id2 t2 q [= -> ->]%list_elem_of_singleton
      [= -> ->]%list_elem_of_singleton. done.
Qed.

Lemma reachable_timers_wf s : reachable BULLET_COOLDOWN s → timers_wf s.
Proof.
  intros (arena & evs & ->). apply run_timers_wf, initialize_timers_wf.
Qed.

(** The window stays open under every step but the firing of its
    timeout. *)
Lemma window_step player tid s ev :
  window player tid s → (∀ env, ev ≠ (env, TimerFires tid)) →
  window player tid (step BULLET_COOLDOWN s ev).
Proof.
  intros (Hin & (t & Ht & Hcb) & Hwf) Hev.
  pose proof (step_timers_wf s ev Hwf) as Hwf'.
  destruct (step_cases s ev Hwf)
    as [(id & (Hc & Hn & Hts) & Hwhich)
       |[(p & c & f & d & _ & Hfree & Hs)
        |(id & t' & q & Hfire & Hin' & Hcb' & Hs)]];
    (split; [|split; [exists t; split; [|done]|done]]).
  - by rewrite Hc.
  - destruct Hwhich as [-> |Hfire]; [done|].
    destruct Hts as [->| ->]; [done|]. apply elem_of_Map_delete.
    split; [done|]. intros <-.
    destruct ev as [env e]. simpl in Hfire. subst e. by apply (Hev env).
  - destruct Hs as [->| ->]; simpl; by apply elem_of_union_r.
  - destruct Hs as [->| ->]; simpl; rewrite ?elem_of_app; auto.
  - rewrite Hs. simpl. apply elem_of_difference. split; [done|].
    rewrite elem_of_singleton. intros ->.
    assert (id = tid) as -> by (eapply (wf_single s Hwf); eauto).
    destruct ev as [env e]. simpl in Hfire. subst e. by apply (Hev env).
  - rewrite Hs. simpl. apply elem_of_Map_delete. split; [done|].
    intros ->. destruct ev as [env e]. simpl in Hfire. subst e.
    by apply (Hev env).
Qed.

Lemma window_run player tid evs s :
  window player tid s → silent tid evs →
  window player tid (run BULLET_COOLDOWN evs s).
Proof.
  intros Hw. induction evs as [|ev evs IH] using rev_ind; [done|].
  intros Hsil. rewrite run_snoc. apply window_step.
  - apply IH. intros env Hin. apply (Hsil env), elem_of_app. by left.
  - intros env ->. apply (Hsil env), elem_of_app. right. left.
Qed.

(** A player outside the cooldown set stays outside until the player
    attacks. *)
Lemma free_step player s ev :
  timers_wf s → player ∉ cooldown s →
  (∀ c f, ev.2 ≠ Attack player c f) →
  player ∉ cooldown (step BULLET_COOLDOWN s ev).
Proof.
  intros Hwf Hfree Hev.
  destruct (step_cases s ev Hwf)
    as [(id & (Hc & _) & _)
       |[(p & c & f & d & Hatt & _ & Hs)
        |(id & t & q & _ & _ & _ & Hs)]].
  - by rewrite Hc.
  - assert (p ≠ player) by (intros ->; by apply (Hev c f)).
    destruct Hs as [->| ->]; simpl;
      rewrite elem_of_union, elem_of_singleton; intros [?|?]; done.
  - rewrite Hs. simpl. rewrite elem_of_difference. tauto.
Qed.

Lemma free_run player evs s :
  timers_wf s → player ∉ cooldown s →
  (∀ env c f, (env, Attack player c f) ∉ evs) →
  player ∉ cooldown (run BULLET_COOLDOWN evs s).
Proof.
  intros Hwf Hfree. induction evs as [|ev evs IH] using rev_ind; [done|].
  intros Hev. rewrite run_snoc. apply free_step.
  - by apply run_timers_wf.
  - apply IH. intros env c f Hin. apply (Hev env c f), elem_of_app. by left.
  - intros c f Heq. destruct ev as [env e]. simpl in Heq. subst e.
    apply (Hev env c f), elem_of_app. right. left.
Qed.

Lemma window_denies player tid s c f :
  window player tid s →
  let again := c2s_attack BULLET_COOLDOWN player c f s in
  again.1 = s
  ∧ again.2 ≠ Return (VBool true)
  ∧ again.2 ≠ Return (VBool false)
  ∧ (is_Some (Map_get (MapCoord.mapName c) (arenaOfMaps s)) →
     again.2 = Return VUndefined)
  ∧ (Map_get (MapCoord.mapName c) (arenaOfMaps s) = None →
     again.2 = Throw TypeError).
Proof.
  intros (Hin & _ & _) again. subst again.
  destruct (Map_get (MapCoord.mapName c) (arenaOfMaps s))
    as [cellSets|] eqn:Harena.
  - rewrite (c2s_attack_waiting _ _ _ _ _ cellSets) by done. done.
  - rewrite c2s_attack_unknown_map by done.
    split; [done|]. split; [done|]. split; [done|]. split; [|done].
    by intros [? ?].
Qed.

Lemma window_closes player tid s env :
  window player tid s →
  step BULLET_COOLDOWN s (env, TimerFires tid) = released tid player s.
Proof.
  intros (Hin & (t & Ht & Hcb) & Hwf). unfold step. simpl.
  destruct (wf_held s Hwf _ _ _ Ht Hcb) as [_ Hrep].
  rewrite (fireTimer_release env tid s t player); [done| |done|done].
  apply Map_get_NoDup; [apply Hwf|done].
Qed.

(** C3: a permitted attack of a player puts the player in the
    cooldown set and registers one timeout of [BULLET_COOLDOWN] ms for
    the release.  Until that timeout fires, whatever else happens, every
    attack of the player changes nothing and is denied, but not with
    [false]: the call ends in a bare [return] and yields [undefined]
    when the map of the origin has an arena entry, and throws a
    TypeError when it has none.  When the timeout fires the player
    leaves the set, and stays out of it while others act; the player's
    next attack from inside the arena with a facing that names a
    property of [Facing2Direction] returns [true] again. *)
Theorem cooldown_gate (player : string) (mapCoord : MapCoord.t)
    (facing : string) (s s1 : World) :
  reachable BULLET_COOLDOWN s →
  c2s_attack BULLET_COOLDOWN player mapCoord facing s
  = (s1, Return (VBool true)) →
  let tid := nextTimer s in
  player ∈ cooldown s1
  ∧ Map_get tid (timers s1)
    = Some {| callback := cooldown_delete player;
              delay := BULLET_COOLDOWN; repeating := false |}
  ∧ (∀ id t, (id, t) ∈ timers s1 →
             callback t = cooldown_delete player → id = tid)
  ∧ ∀ evs, silent tid evs →
      let s2 := run BULLET_COOLDOWN evs s1 in
      (∀ c f,
         let again := c2s_attack BULLET_COOLDOWN player c f s2 in
         again.1 = s2
         ∧ again.2 ≠ Return (VBool true)
         ∧ again.2 ≠ Return (VBool false)
         ∧ (is_Some (Map_get (MapCoord.mapName c) (arenaOfMaps s2)) →
            again.2 = Return VUndefined)
         ∧ (Map_get (MapCoord.mapName c) (arenaOfMaps s2) = None →
            again.2 = Throw TypeError))
      ∧ ∀ env evs',
          (∀ env' c f, (env', Attack player c f) ∉ evs') →
          let s3 := run BULLET_COOLDOWN ((env, TimerFires tid) :: evs') s2 in
          (player ∉ cooldown s3)
          ∧ ∀ c f cellSets d,
              Map_get (MapCoord.mapName c) (arenaOfMaps s3) = Some cellSets →
              insideCellSets cellSets c = true →
              Facing2Direction f = Some d →
              (c2s_attack BULLET_COOLDOWN player c f s3).2
              = Return (VBool true).
Proof.
  intros Hreach Hrun tid.
  pose proof (reachable_timers_wf s Hreach) as Hwf.
  apply c2s_attack_true_inv in Hrun as (d & Hfree & Hd & ->).
  pose proof (timers_wf_fired player mapCoord facing d s Hwf Hfree) as Hwf1.
  set (t := {| callback := cooldown_delete player;
               delay := BULLET_COOLDOWN; repeating := false |}).
  assert (Ht : (tid, t) ∈ timers (fired BULLET_COOLDOWN player mapCoord
                                    facing d s)).
  { simpl. rewrite !elem_of_app, !list_elem_of_singleton. auto. }
  assert (Hopen : window player tid
                    (fired BULLET_COOLDOWN player mapCoord facing d s)).
  { split; [simpl; apply elem_of_union_l; by apply elem_of_singleton|].
    split; [by exists t|done]. }
  split; [apply Hopen|]. split.
  { apply Map_get_NoDup; [apply Hwf1|done]. }
  split.
  { intros id t' Hin Hcb. by apply (wf_single _ Hwf1 id t' tid t player). }
  intros evs Hsil s2.
  pose proof (window_run player tid evs _ Hopen Hsil) as Hw. fold s2 in Hw.
  split; [intros c f; by apply (window_denies player tid)|].
  intros env evs' Hquiet s3.
  assert (Hfree3 : player ∉ cooldown s3).
  { subst s3. unfold run. simpl. fold (run BULLET_COOLDOWN evs').
    rewrite (window_closes player tid s2 env Hw).
    assert (Hwfr : timers_wf (released tid player s2)).
    { rewrite <- (window_closes player tid s2 env Hw).
      apply step_timers_wf, Hw. }
    apply free_run; [done| |done].
    simpl. rewrite elem_of_difference, elem_of_singleton. tauto. }
  split; [done|].
  intros c f cellSets d' Harena Hinside Hd'.
  by rewrite (c2s_attack_permitted _ _ _ _ _ cellSets d').
Qed.
End Gate.

(** * Reachable worlds hold young bullets only *)

Lemma fireTimer_young env id s : young s → young (fireTimer env id s).1.
Proof.
  intros Hy. unfold fireTimer, clearInterval. unfoldM.
  destruct (Map_get id (timers s)) as [t|]; [|done].
  assert (Hcb : ∀ s0, young s0 → young (runCallback env id (callback t) s0).1).
  { intros s0 Hy0. destruct (callback t); simpl.
    - done.
    - by apply updateBullet_tick_young.
    - eapply young_shrunk; [exact Hy0|apply updateMap_tick_shrunk]. }
  destruct (repeating t); simpl; apply Hcb; done.
Qed.

Lemma step_young cd s ev : young s → young (step cd s ev).
Proof.
  intros Hy. destruct ev as [env [player c f|id|msg]]; unfold step; simpl.
  - destruct (c2s_attack_cases cd player c f s)
      as [H|[H|[_ [(d & _ & H)|H]]]]; rewrite H; simpl; try done.
    intros k b. simpl. destruct (decide (bulletID s = k)) as [<-|Hne].
    + rewrite Map_get_set_eq. intros [= <-]. done.
    + rewrite Map_get_set_ne by done. apply Hy.
  - pose proof (fireTimer_young env id s Hy) as Hy'.
    destruct (fireTimer env id s) as [s' [?|?]]; done.
  - unfold playerUpdateListener.
    pose proof (onPlayerUpdate_shrunk env msg s) as Hs.
    destruct (onPlayerUpdate env msg s) as [s' [?|?]]; simpl in *;
      by apply (young_shrunk s).
Qed.

Lemma initialize_young arena : young (initialize arena).
Proof.
  unfold initialize.
  set (s := mkWorld arena [] 0 [] ∅ 0 [] 0 []).
  apply (young_shrunk s); [by intros k b|].
  assert (Hpre : preserves shrunk
            (forEach announce (Map_keys arena);;
             setInterval updateMap MAP_UPDATE_PERIOD)).
  { unfold announce, setInterval, setTimer. frame; try by apply shrunk_same.
    intros s0. by apply shrunk_same. }
  apply Hpre.
Qed.

Lemma reachable_young cd s : reachable cd s → young s.
Proof.
  intros (arena & evs & ->).
  induction evs as [|ev evs IH] using rev_ind.
  - apply initialize_young.
  - rewrite run_snoc. by apply step_young.
Qed.

(** * The collision scan *)

(** [==] on two numbers that are not [NaN]. *)
Lemma js_eq_true (a b : num) : js_eq a b = true ↔ ∃ z, a = Some z ∧ b = Some z.
Proof.
  destruct a as [a|], b as [b|]; simpl.
  - rewrite Z.eqb_eq. split; [intros ->; eauto|].
    by intros (z & [= ->] & [= ->]).
  - split; [done|]. by intros (? & _ & ?).
  - split; [done|]. by intros (? & ? & _).
  - split; [done|]. by intros (? & ? & _).
Qed.

Lemma firstHit_registered player tickY bs bid b :
  Map_get bid bs = Some b →
  js_eq (MapCoord.x player) (MapCoord.x (bulletCoord b)) = true →
  js_eq (MapCoord.y player) tickY = true →
  is_Some (firstHit player tickY bs).
Proof.
  intros Hget Hx Hy. induction bs as [|[k b'] bs IH]; simpl in *; [done|].
  destruct (js_eq (MapCoord.x player) (MapCoord.x (bulletCoord b'))
            && js_eq (MapCoord.y player) tickY) eqn:Htest; [by eexists|].
  destruct (decide (bid = k)) as [->|Hne]; [|auto].
  injection Hget as ->. rewrite Hx, Hy in Htest. done.
Qed.

(** A player standing on the cell of a registered bullet whose [y] is
    the [y] of the running interval is relocated to (1,1) on the
    player's map, and one bullet with the player's [x] leaves the
    registry. *)
Lemma hitScan_relocates self tickY playerID c s bid b :
  Map_get bid (bullets s) = Some b →
  js_eq (MapCoord.x c) (MapCoord.x (bulletCoord b)) = true →
  js_eq (MapCoord.y c) tickY = true →
  ∃ hit,
    firstHit c tickY (bullets s) = Some hit
    ∧ hitScan self tickY (playerID, c) s
      = (set_bullets (Map_delete hit)
           (set_timers (Map_delete self (timers s)) (nextTimer s)
              (add_log (helper_teleport playerID
                          (MapCoord.mk (MapCoord.mapName c) (Some 1) (Some 1)) true) s)),
         Return ()).
Proof.
  intros Hget Hx Hy.
  destruct (firstHit_registered c tickY (bullets s) bid b Hget Hx Hy)
    as [hit Hhit].
  exists hit. split; [done|].
  unfold hitScan, teleport, clearInterval. unfoldM. simpl. by rewrite Hhit.
Qed.

(** * Concrete rounds *)

(** C1: on a tick of bullet 1, which has moved onto the cell (5,4) of
    player ["v"], the player is relocated to (1,1), but the bullet that
    leaves the registry is bullet 0, which stands on (5,9); bullet 1
    stays registered on the player's cell and its own interval (handle
    4) is the one cleared, while the interval of the deleted bullet
    (handle 2) stays pending and throws when it fires next. *)
Theorem collision_removes_another_bullet :
  let s := step cd_ms two_bullets (victim, TimerFires 4%nat) in
  Map_get 0%nat (bullets two_bullets)
  = Some {| facing := "R"; bulletCoord := at_m 5 9; duration := 0 |}
  ∧ Map_get 1%nat (bullets two_bullets)
    = Some {| facing := "U"; bulletCoord := at_m 5 3; duration := 0 |}
  ∧ relocations (log s) = [("v", at_m 1 1, true)]
  ∧ Map_get 1%nat (bullets s)
    = Some {| facing := "U"; bulletCoord := at_m 5 4; duration := 1 |}
  ∧ Map_get 0%nat (bullets s) = None
  ∧ Map_get 4%nat (timers s) = None
  ∧ Map_get 2%nat (timers s)
    = Some {| callback := updateBullet 0 "m"; delay := BULLET_SPEED;
              repeating := true |}
  ∧ (fireTimer nobody 2%nat s).2 = Throw TypeError.
Proof. vm_compute. repeat split. Qed.

(** C2: with the maps ["A"] (2x2 arena) and ["B"] (10x10 arena) the
    first arena tick finds ["A"] consumed, clears the interval and
    returns: no fire layer has been broadcast and ["B"] is not consumed.
    With the single 4x4 arena the first tick broadcasts the strips of
    width 1; the second tick computes the final strips of width 2 and
    clears the interval without broadcasting them. *)
Theorem shrinker_halts_early :
  let ab := step cd_ms (initialize arena_AB) (nobody, TimerFires 0%nat) in
  let m1 := step cd_ms (initialize arena_small) (nobody, TimerFires 0%nat) in
  let m2 := step cd_ms m1 (nobody, TimerFires 0%nat) in
  (timers ab = [] ∧ fireCounter ab = 1
   ∧ consumed (fireCounter ab) (rect 0 0 10 10) = false
   ∧ fireUpdates (log ab) = [])
  ∧ (fireUpdates (log m1) = [("m", edgeStrips 1 (rect 0 0 4 4))]
     ∧ timers m2 = [] ∧ fireCounter m2 = 2
     ∧ consumed 1 (rect 0 0 4 4) = false
     ∧ consumed 2 (rect 0 0 4 4) = true
     ∧ fires m2 = edgeStrips 2 (rect 0 0 4 4)
     ∧ fireUpdates (log m2) = [("m", edgeStrips 1 (rect 0 0 4 4))]).
Proof. vm_compute. repeat split. Qed.

(** C8: an update of player ["p1"] that carries no coordinate is not
    dropped: the handler logs nothing and looks the missing coordinate
    up on the bullet layer, where the game map throws; the listener
    leaves the rejected promise unhandled. *)
Theorem absent_coordinate_reaches_layer_check :
  let msg := {| msg_mapCoord := VUndefined; msg_playerID := VStr "p1" |} in
  let s := initialize arena_m in
  let r := onPlayerUpdate nobody msg s in
  r.2 = Throw TypeError
  ∧ log r.1 = log s ++ [getCell VUndefined LAYER_BULLET]
  ∧ lookups (log r.1) = [(VUndefined, LAYER_BULLET)]
  ∧ warnings (log r.1) = []
  ∧ log (playerUpdateListener nobody msg s).1
    = log s ++ [getCell VUndefined LAYER_BULLET; unhandledRejection].
Proof. vm_compute. repeat split. Qed.

(** One bullet is spent on one player: with a single bullet moving
    onto the cell of two players, the first in iteration order is
    relocated and the bullet leaves the registry; the second finds no
    bullet and stays. *)
Example one_bullet_one_relocation :
  let s := step cd_ms one_shot.1 (crowd, TimerFires 2%nat) in
  bullets one_shot.1
  = [(0%nat, {| facing := "U"; bulletCoord := at_m 3 4; duration := 0 |})]
  ∧ relocations (log s) = [("v", at_m 1 1, true)]
  ∧ bullets s = []
  ∧ Map_get 2%nat (timers s) = None.
Proof. vm_compute. repeat split. Qed.

Lemma cooldown_gate_witness :
  "p" ∈ cooldown one_shot.1
  ∧ Map_get 1%nat (timers one_shot.1)
    = Some {| callback := cooldown_delete "p"; delay := cd_ms;
              repeating := false |}
  ∧ (c2s_attack cd_ms "p" (at_m 3 3) "U" one_shot.1).2 = Return VUndefined
  ∧ (c2s_attack cd_ms "p" (at_m 3 3) "U" one_shot.1).2
    ≠ Return (VBool false).
Proof.
  assert (Hreach : reachable cd_ms (initialize arena_m)).
  { exists arena_m, []. reflexivity. }
  assert (Hrun : c2s_attack cd_ms "p" (at_m 3 3) "U" (initialize arena_m)
                 = (one_shot.1, Return (VBool true))).
  { vm_compute. reflexivity. }
  destruct (cooldown_gate cd_ms "p" (at_m 3 3) "U" (initialize arena_m)
              one_shot.1 Hreach Hrun) as (Hin & Hget & _ & Hwindow).
  assert (Hsil : silent 1 []).
  { intros env Hno. exact (proj1 (elem_of_nil _) Hno). }
  destruct (Hwindow [] Hsil) as [Hdeny _].
  destruct (Hdeny (at_m 3 3) "U") as (_ & _ & Hnf & Hund & _).
  split; [exact Hin|]. split; [exact Hget|]. split; [|exact Hnf].
  apply Hund. exists [ {| cells := [rect 0 0 20 20] |} ]. reflexivity.
Defined.

Lemma updateBullet_tick_lifecycle_witness :
  updateBullet_tick nobody 2 0 "m" old_bullet
  = (dropped 2 0 "m" [] old_bullet, Return ()).
Proof.
  destruct (updateBullet_tick_lifecycle nobody 2 0 "m" old_bullet
              {| facing := "U"; bulletCoord := at_m 3 8; duration := 4 |}
              (Array 0 1) eq_refl eq_refl) as (_ & _ & _ & _ & Hold & _).
  apply Hold. vm_compute. discriminate.
Defined.

Lemma attack_spawns_one_step_ahead_witness :
  Map_get 0%nat (bullets one_shot.1)
  = Some {| facing := "U"; bulletCoord := at_m 3 4; duration := 0 |}.
Proof.
  assert (Hrun : c2s_attack cd_ms "p" (at_m 3 3) "U" (initialize arena_m)
                 = (one_shot.1, Return (VBool true))).
  { vm_compute. reflexivity. }
  destruct (attack_spawns_one_step_ahead cd_ms "p" (at_m 3 3) "U"
              (initialize arena_m) one_shot.1 Hrun)
    as (_ & d & x & y & Hd & _ & _ & Hget & _).
  injection Hd as <-. exact Hget.
Defined.

Lemma attack_outside_arena_rejected_witness :
  (c2s_attack cd_ms "p" (at_m 30 3) "U" (initialize arena_m)).2
  = Return VUndefined
  ∧ (c2s_attack cd_ms "p" (MapCoord.mk "zz" (Some 3) (Some 3)) "U"
       (initialize arena_m)).2
    = Throw TypeError.
Proof.
  split.
  - apply (attack_outside_arena_rejected cd_ms "p" (at_m 30 3) "U"
             (initialize arena_m)).
    + intros cellSets Harena. vm_compute in Harena.
      injection Harena as <-. reflexivity.
    + exists [ {| cells := [rect 0 0 20 20] |} ]. reflexivity.
  - apply (attack_outside_arena_rejected cd_ms "p"
             (MapCoord.mk "zz" (Some 3) (Some 3)) "U" (initialize arena_m)).
    + intros cellSets Harena. vm_compute in Harena. discriminate Harena.
    + reflexivity.
Defined.

Lemma attack_outside_arena_frame_witness :
  (c2s_attack cd_ms "p" (at_m 30 3) "U" (initialize arena_m)).1
  = initialize arena_m.
Proof.
  apply (attack_outside_arena_frame cd_ms "p" (at_m 30 3) "U"
           (initialize arena_m)).
  intros cellSets Harena. vm_compute in Harena.
  injection Harena as <-. reflexivity.
Defined.

(** * Further properties: geometry *)

(** X1: [insideMap] never changes the world; it throws a TypeError
    exactly when [arenaOfMaps] has no entry for the coordinate's map, and
    otherwise answers whether some cell of some cell set of that map
    holds the coordinate, a cell without [w] (or [h]) counting as one
    cell wide (high); a coordinate that is [NaN] is in no cell. *)
Theorem insideMap_geometry (c : MapCoord.t) (s : World) :
  insideMap c s
  = (s, match Map_get (MapCoord.mapName c) (arenaOfMaps s) with
        | Some cellSets => Return (insideCellSets cellSets c)
        | None => Throw TypeError
        end)
  ∧ ∀ cellSets,
      insideCellSets cellSets c = true ↔
      ∃ cs cell px py,
        cs ∈ cellSets ∧ cell ∈ cells cs
        ∧ MapCoord.x c = Some px ∧ MapCoord.y c = Some py
        ∧ Cell.x cell ≤ px < Cell.x cell + default 1 (Cell.w cell)
        ∧ Cell.y cell ≤ py < Cell.y cell + default 1 (Cell.h cell).
Proof.
  split.
  - unfold insideMap. unfoldM.
    by destruct (Map_get (MapCoord.mapName c) (arenaOfMaps s)).
  - intros cellSets. unfold insideCellSets. rewrite existsb_exists. split.
    + intros (cs & Hcs & Hin).
      apply existsb_exists in Hin as (cell & Hcell & Hin).
      apply cellContains_spec in Hin as (px & py & Hin).
      exists cs, cell, px, py. rewrite <- !list_elem_of_In in *. tauto.
    + intros (cs & cell & px & py & Hcs & Hcell & Hin). exists cs.
      split; [by apply list_elem_of_In|]. apply existsb_exists.
      exists cell. split; [by apply list_elem_of_In|].
      apply cellContains_spec. by exists px, py.
Qed.

Lemma updateEdge_false_iff (fires : list Fire.t) (cellSets : list CellSet)
    (k : Z) :
  (updateEdge fires cellSets k).2 = false ↔
  ∀ cs cell, cs ∈ cellSets → cell ∈ cells cs → consumed k cell = true.
Proof.
  rewrite updateEdge_flag, negb_false_iff, forallb_forall. split.
  - intros Hall cs cell Hcs Hcell. apply Hall, in_flat_map.
    exists cs. by rewrite <- !list_elem_of_In.
  - intros Hall cell (cs & Hcs & Hcell)%in_flat_map.
    apply (Hall cs); by apply list_elem_of_In.
Qed.

(** X2: [updateEdge] returns [false] exactly when every cell of every
    cell set is consumed; in particular it returns [false] for a map
    without arena cells, leaving the fire set as it was. *)
Theorem updateEdge_reports (fires : list Fire.t) (cellSets : list CellSet)
    (k : Z) :
  ((updateEdge fires cellSets k).2 = false ↔
   ∀ cs cell, cs ∈ cellSets → cell ∈ cells cs → consumed k cell = true)
  ∧ updateEdge fires [] k = (fires, false)
  ∧ updateEdge fires [ {| cells := [] |} ] k = (fires, false).
Proof.
  split; [apply updateEdge_false_iff|].
  split; unfold updateEdge; simpl; done.
Qed.

Lemma half_min_eq (k a : Z) : (Z.min k a =? a) = true ↔ a ≤ k.
Proof. rewrite Z.eqb_eq. lia. Qed.

(** X3: a rectangle with both sizes present is consumed at counter [k]
    exactly when [k] has reached both floor(w/2) and floor(h/2); so a
    consumed rectangle stays consumed for every larger counter. *)
Theorem consumed_threshold (x y w h k : Z) :
  (consumed k (rect x y w h) = true ↔ w / 2 ≤ k ∧ h / 2 ≤ k)
  ∧ ∀ k', k ≤ k' → consumed k (rect x y w h) = true →
          consumed k' (rect x y w h) = true.
Proof.
  assert (Hiff : ∀ j, consumed j (rect x y w h) = true ↔ w / 2 ≤ j ∧ h / 2 ≤ j).
  { intros j. unfold consumed, wbound, hbound. simpl.
    by rewrite andb_true_iff, !half_min_eq. }
  split; [apply Hiff|]. intros k' Hle. rewrite !Hiff. lia.
Qed.

Lemma strips_at_saturation (x y w h k : Z) :
  w / 2 ≤ k → h / 2 ≤ k →
  edgeStrips k (rect x y w h)
  = [ Fire.mk (Some x) (Some y) (Some w) (Some (h / 2));
      Fire.mk (Some x) (Some (y + h - h / 2)) (Some w) (Some (h / 2));
      Fire.mk (Some x) (Some y) (Some (w / 2)) (Some h);
      Fire.mk (Some (x + w - w / 2)) (Some y) (Some (w / 2)) (Some h) ].
Proof.
  intros Hw Hh. unfold edgeStrips, wbound, hbound. simpl.
  by rewrite !(Z.min_r k) by lia.
Qed.

(** X4: once the counter has reached both half sizes, the four strips of
    a rectangle are the same for every larger counter: the border grows
    no further. *)
Theorem strips_saturate (x y w h k k' : Z) :
  w / 2 ≤ k → h / 2 ≤ k → k ≤ k' →
  edgeStrips k' (rect x y w h) = edgeStrips k (rect x y w h).
Proof.
  intros Hw Hh Hle. by rewrite !strips_at_saturation by lia.
Qed.

Lemma strips_saturate_witness :
  edgeStrips 9 (rect 0 0 10 7) = edgeStrips 5 (rect 0 0 10 7).
Proof.
  apply (strips_saturate 0 0 10 7 5 9); vm_compute; discriminate.
Defined.

(** X5: a cell that lacks [w] or [h] is never consumed, so [updateEdge]
    reports an update at every counter for cell sets that hold one. *)
Theorem sizeless_cell_never_consumed (cellSets : list CellSet) (cs : CellSet)
    (cell : Cell.t) (fires : list Fire.t) (k : Z) :
  cs ∈ cellSets → cell ∈ cells cs →
  Cell.w cell = None ∨ Cell.h cell = None →
  consumed k cell = false ∧ (updateEdge fires cellSets k).2 = true.
Proof.
  intros Hcs Hcell Hnone.
  assert (Hc : consumed k cell = false).
  { unfold consumed, wbound, hbound.
    destruct Hnone as [-> | ->]; simpl; [done|]. apply andb_false_r. }
  split; [done|].
  destruct ((updateEdge fires cellSets k).2) eqn:Hflag; [done|].
  rewrite updateEdge_false_iff in Hflag. by rewrite (Hflag cs cell) in Hc.
Qed.

Lemma sizeless_cell_never_consumed_witness :
  (updateEdge [] [ {| cells := [Cell.mk 3 3 None None] |} ] 100).2 = true.
Proof.
  apply (sizeless_cell_never_consumed _ {| cells := [Cell.mk 3 3 None None] |}
           (Cell.mk 3 3 None None) [] 100).
  - apply list_elem_of_singleton. reflexivity.
  - apply list_elem_of_singleton. reflexivity.
  - left. reflexivity.
Defined.

(** X6: every strip lies inside its rectangle: a coordinate that a strip
    of a rectangle holds is held by the rectangle, at every counter. *)
Theorem strips_inside_rectangle (x y w h k : Z) (f : Fire.t)
    (c : MapCoord.t) :
  f ∈ edgeStrips k (rect x y w h) → covers f c = true →
  cellContains (rect x y w h) c = true.
Proof.
  intros Hf Hc. apply cellContains_spec. simpl.
  pose proof (Z.mul_div_le w 2 ltac:(lia)).
  pose proof (Z.mul_div_le h 2 ltac:(lia)).
  unfold edgeStrips, wbound, hbound in Hf. simpl in Hf.
  repeat (apply elem_of_cons in Hf as [-> |Hf]);
    [| | | |by apply elem_of_nil in Hf];
    unfold covers in Hc; simpl in Hc;
    apply cellContains_spec in Hc as (px & py & Hx & Hy & Hc); simpl in Hc;
    exists px, py; (split; [done|]); (split; [done|]); lia.
Qed.

Lemma strips_inside_rectangle_witness :
  cellContains (rect 0 0 10 10) (at_m 9 4) = true.
Proof.
  apply (strips_inside_rectangle 0 0 10 10 3
           (Fire.mk (Some 7) (Some 0) (Some 3) (Some 10))).
  - vm_compute. do 3 right. left.
  - reflexivity.
Defined.

(** X7: a rectangle whose width and height are both odd keeps its
    centre cell free of fire for ever: no strip holds it at any counter.
    When the counter has reached both half sizes, the strips hold every
    other coordinate of the rectangle, and every coordinate of a
    rectangle with an even side. *)
Theorem strips_cover_all_but_odd_centre (x y w h k : Z) (c : MapCoord.t) :
  cellContains (rect x y w h) c = true →
  (w mod 2 = 1 → h mod 2 = 1 →
   MapCoord.x c = Some (x + w / 2) → MapCoord.y c = Some (y + h / 2) →
   ∀ j, existsb (λ f, covers f c) (edgeStrips j (rect x y w h)) = false)
  ∧ (w / 2 ≤ k → h / 2 ≤ k →
     (existsb (λ f, covers f c) (edgeStrips k (rect x y w h)) = false ↔
      w mod 2 = 1 ∧ h mod 2 = 1
      ∧ MapCoord.x c = Some (x + w / 2) ∧ MapCoord.y c = Some (y + h / 2))).
Proof.
  intros Hin. apply cellContains_spec in Hin as (px & py & Hx & Hy & Hin).
  simpl in Hin. destruct c as [m cx cy]. simpl in Hx, Hy. subst cx cy.
  pose proof (Z.div_mod w 2 ltac:(lia)).
  pose proof (Z.div_mod h 2 ltac:(lia)).
  pose proof (Z.mod_pos_bound w 2 ltac:(lia)).
  pose proof (Z.mod_pos_bound h 2 ltac:(lia)).
  split.
  - intros Hw Hh [= ->] [= ->] j.
    unfold edgeStrips, wbound, hbound, covers, cellContains. simpl.
    rewrite !orb_false_iff, !andb_false_iff.
    rewrite !Z.leb_gt, !Z.ltb_ge. lia.
  - intros Hw Hh. rewrite (strips_at_saturation x y w h k Hw Hh).
    unfold covers, cellContains. simpl.
    rewrite !orb_false_iff, !andb_false_iff.
    rewrite !Z.leb_gt, !Z.ltb_ge.
    split.
    + intros Hout. assert (w mod 2 = 1 ∧ h mod 2 = 1
                           ∧ px = x + w / 2 ∧ py = y + h / 2) as (?&?&->&->)
        by lia. done.
    + intros (? & ? & [= ->] & [= ->]). lia.
Qed.

Lemma strips_cover_all_but_odd_centre_witness :
  existsb (λ f, covers f (at_m 2 1)) (edgeStrips 1 (rect 0 0 5 3)) = false
  ∧ existsb (λ f, covers f (at_m 2 1)) (edgeStrips 7 (rect 0 0 5 3)) = false.
Proof.
  destruct (strips_cover_all_but_odd_centre 0 0 5 3 7 (at_m 2 1) eq_refl)
    as [Hnever Hsat].
  split.
  - apply Hnever; reflexivity.
  - apply Hsat.
    + vm_compute. discriminate.
    + vm_compute. discriminate.
    + repeat split.
Defined.

(** * Further properties: the bullet registry *)

Global Instance rooted_preorder : PreOrder rooted.
Proof.
  split.
  - by intros s.
  - intros s1 s2 s3 [Ha1 Hb1] [Ha2 Hb2]. split; congruence.
Qed.

Lemma rooted_same s s' :
  arenaOfMaps s' = arenaOfMaps s → bulletID s' = bulletID s → rooted s s'.
Proof. by split. Qed.

Ltac rooted_frame := frame; try by apply rooted_same.

Lemma updateBullet_tick_rooted env self bid mapName :
  preserves rooted (updateBullet_tick env self bid mapName).
Proof. unfold updateBullet_tick. rooted_frame. Qed.

Lemma updateMap_tick_rooted env self : preserves rooted (updateMap_tick env self).
Proof.
  unfold updateMap_tick. rooted_frame.
  match goal with |- preserves _ (updateMap_loop _ _ ?l) => generalize l end.
  intros mapNames. induction mapNames as [|mapName rest IH]; simpl.
  - frame.
  - rooted_frame. apply IH.
Qed.

Lemma playerUpdateListener_rooted env msg :
  preserves rooted (playerUpdateListener env msg).
Proof.
  intros s. unfold playerUpdateListener.
  assert (Hpre : preserves rooted (onPlayerUpdate env msg))
    by (unfold onPlayerUpdate; rooted_frame).
  specialize (Hpre s).
  destruct (onPlayerUpdate env msg s) as [s' [?|?]]; simpl in *; [done|].
  etrans; [exact Hpre|]. by apply rooted_same.
Qed.

Lemma playerUpdateListener_shrunk env msg :
  preserves shrunk (playerUpdateListener env msg).
Proof.
  intros s. unfold playerUpdateListener.
  pose proof (onPlayerUpdate_shrunk env msg s) as Hpre.
  destruct (onPlayerUpdate env msg s) as [s' [?|?]]; simpl in *; [done|].
  etrans; [exact Hpre|]. by apply shrunk_same.
Qed.

Lemma bullets_wf_kept s s' :
  bullets_wf s → shrunk s s' → rooted s s' → bullets_wf s'.
Proof.
  intros [Hf Hd Ha Hg] Hs [Harena Hid].
  assert (Hsub : ∀ k b, Map_get k (bullets s') = Some b →
                        Map_get k (bullets s) = Some b).
  { intros k b Hk. destruct (Hs k) as [Hn|He]; congruence. }
  split; intros k b Hk%Hsub; rewrite ?Harena, ?Hid; eauto.
Qed.

Lemma bullets_wf_set s k b :
  bullets_wf s →
  (k < bulletID s)%nat →
  (∃ d, Facing2Direction (facing b) = Some d ∧ placed d b) →
  is_Some (Map_get (MapCoord.mapName (bulletCoord b)) (arenaOfMaps s)) →
  0 ≤ duration b < BULLET_LIFE →
  bullets_wf (set_bullets (Map_set k b) s).
Proof.
  intros [Hf Hd Ha Hg] Hk Hfac Har Hage.
  split; intros k' b'; cbn [bullets set_bullets arenaOfMaps bulletID];
    (destruct (decide (k = k')) as [<-|Hne];
      [rewrite Map_get_set_eq; intros [= <-]; done
      |rewrite Map_get_set_ne by done; eauto]).
Qed.

(** A bullet that is not on integer coordinates after its move is
    outside every arena: its tick drops it without asking the game map
    or the players. *)
Lemma tick_lost env self bid mapName s bullet d :
  Map_get bid (bullets s) = Some bullet →
  Facing2Direction (facing bullet) = Some d →
  is_Some (Map_get (MapCoord.mapName (bulletCoord bullet)) (arenaOfMaps s)) →
  MapCoord.x (bulletCoord (advance bullet d)) = None
  ∨ MapCoord.y (bulletCoord (advance bullet d)) = None →
  updateBullet_tick env self bid mapName s
  = (dropped self bid mapName [] s, Return ()).
Proof.
  intros Hget Hd [cellSets Harena] Hnan.
  destruct (Z.le_gt_cases BULLET_LIFE (duration (advance bullet d)))
    as [Hold|Hyoung]; [by apply (tick_old _ _ _ _ _ bullet d)|].
  rewrite (tick_start _ _ _ _ _ bullet d) by done.
  unfold afterMove. unfold mbind at 1. unfold M_bind at 1.
  rewrite (terminated_outside _ _ _ cellSets); [|done|done|].
  - apply (drop_bullet _ _ _ _ []).
  - apply insideCellSets_false. intros cs cell _ _.
    by apply cellContains_NaN.
Qed.

Lemma placed_advance d0 d1 b :
  placed (Array d0 d1) b → placed (Array d0 d1) (advance b (Array d0 d1)).
Proof.
  intros [[x Hx] [y Hy]]. simpl. rewrite Hx, Hy. split; by eexists.
Qed.

Lemma placed_move f c d x y :
  MapCoord.x c = Some x → MapCoord.y c = Some y →
  placed d {| facing := f; bulletCoord := MapCoord.move c d; duration := 0 |}.
Proof.
  intros Hx Hy. destruct d as [d0 d1|]; simpl; rewrite Hx, Hy; simpl.
  - split; by eexists.
  - done.
Qed.

Lemma updateBullet_tick_wf env self bid mapName s :
  bullets_wf s → bullets_wf (updateBullet_tick env self bid mapName s).1.
Proof.
  intros Hwf.
  destruct (Map_get bid (bullets s)) as [bullet|] eqn:Hget.
  2: { unfold updateBullet_tick. unfoldM. by rewrite Hget. }
  destruct (bw_facing s Hwf bid bullet Hget) as (d & Hd & Hplaced).
  destruct d as [d0 d1|].
  2: { rewrite (tick_lost _ _ _ _ _ bullet Inherited); [|done|done| |].
       - apply (bullets_wf_kept s); [done| |done].
         by apply (shrunk_delete_bullets bid).
       - by apply (bw_arena s Hwf bid bullet).
       - left. simpl. by destruct Hplaced as (-> & _). }
  set (d := Array d0 d1) in *.
  destruct (Z.le_gt_cases BULLET_LIFE (duration (advance bullet d)))
    as [Hold|Hyoung].
  - rewrite (tick_old _ _ _ _ _ bullet d) by done.
    apply (bullets_wf_kept s); [done| |done].
    by apply (shrunk_delete_bullets bid).
  - rewrite (tick_start _ _ _ _ _ bullet d) by done.
    set (s0 := set_bullets (Map_set bid (advance bullet d)) s).
    assert (Hwf0 : bullets_wf s0).
    { apply bullets_wf_set; [done|by apply (bw_fresh s Hwf bid bullet)
                            |exists d; split; [done|by apply placed_advance]
                            |by apply (bw_arena s Hwf bid bullet)|].
      pose proof (bw_age s Hwf bid bullet Hget). simpl in *. lia. }
    apply (bullets_wf_kept s0); [done|apply afterMove_shrunk|].
    assert (Hpre : preserves rooted
              (afterMove env self bid mapName (advance bullet d)))
      by rooted_frame.
    apply Hpre.
Qed.

Lemma fireTimer_bullets_wf env id s :
  bullets_wf s → bullets_wf (fireTimer env id s).1.
Proof.
  intros Hwf. unfold fireTimer, clearInterval. unfoldM.
  destruct (Map_get id (timers s)) as [t|]; [|done].
  assert (Hcb : ∀ s0, bullets_wf s0 →
                  bullets_wf (runCallback env id (callback t) s0).1).
  { intros s0 Hwf0. destruct (callback t); simpl.
    - by destruct Hwf0.
    - by apply updateBullet_tick_wf.
    - apply (bullets_wf_kept s0);
        [done|apply updateMap_tick_shrunk|apply updateMap_tick_rooted]. }
  destruct (repeating t); simpl; apply Hcb; [done|by destruct Hwf].
Qed.

Lemma bullets_wf_fired cd player c f d s cellSets :
  bullets_wf s →
  Facing2Direction f = Some d →
  Map_get (MapCoord.mapName c) (arenaOfMaps s) = Some cellSets →
  insideCellSets cellSets c = true →
  bullets_wf (fired cd player c f d s).
Proof.
  intros [Hf Hd Ha Hg] Hfac Har Hin.
  apply insideCellSets_numeric in Hin as (x & y & Hx & Hy).
  split; intros k b; cbn [fired bullets arenaOfMaps bulletID];
    (destruct (decide (bulletID s = k)) as [<-|Hne];
      [rewrite Map_get_set_eq; intros [= <-]
      |rewrite Map_get_set_ne by done; intros Hk]).
  - lia.
  - apply Hf in Hk. lia.
  - exists d. split; [done|]. by apply (placed_move f c d x y).
  - eauto.
  - simpl. by eexists.
  - eauto.
  - simpl. unfold BULLET_LIFE. lia.
  - eauto.
Qed.

Lemma step_bullets_wf cd s ev : bullets_wf s → bullets_wf (step cd s ev).
Proof.
  intros Hwf. destruct ev as [env [player c f|id|msg]]; unfold step; simpl.
  - destruct (c2s_attack_cases cd player c f s)
      as [H|[H|[_ [(d & Hd & H)|H]]]]; rewrite H; simpl; try done.
    + destruct (c2s_attack_true_inside cd player c f s _ H)
        as (cellSets & Harena & Hin).
      by apply (bullets_wf_fired _ _ _ _ _ _ cellSets).
    + destruct Hwf as [Hf Hd Ha Hg].
      split; intros k b Hk; simpl in *; [apply Hf in Hk; lia|eauto..].
  - pose proof (fireTimer_bullets_wf env id s Hwf) as Hwf'.
    destruct (fireTimer env id s) as [s' [?|?]]; [done|].
    by destruct Hwf'.
  - apply (bullets_wf_kept s);
      [done|apply playerUpdateListener_shrunk|apply playerUpdateListener_rooted].
Qed.

Lemma initialize_rooted arena :
  arenaOfMaps (initialize arena) = arena ∧ bulletID (initialize arena) = 0%nat.
Proof.
  unfold initialize.
  set (s := mkWorld arena [] 0 [] ∅ 0 [] 0 []).
  assert (Hpre : preserves rooted
            (forEach announce (Map_keys arena);;
             setInterval updateMap MAP_UPDATE_PERIOD)).
  { unfold announce, setInterval, setTimer. rooted_frame.
    intros s0. by apply rooted_same. }
  apply (Hpre s).
Qed.

Lemma initialize_bullets_wf arena : bullets_wf (initialize arena).
Proof.
  assert (Hnone : ∀ k, Map_get k (bullets (initialize arena)) = None).
  { intros k. unfold initialize.
    set (s := mkWorld arena [] 0 [] ∅ 0 [] 0 []).
    assert (Hpre : preserves shrunk
              (forEach announce (Map_keys arena);;
               setInterval updateMap MAP_UPDATE_PERIOD)).
    { unfold announce, setInterval, setTimer. frame; try by apply shrunk_same.
      intros s0. by apply shrunk_same. }
    destruct (Hpre s k) as [Hk|Hk]; [done|]. by rewrite Hk. }
  split; intros k b Hk; by rewrite Hnone in Hk.
Qed.

Lemma reachable_bullets_wf cd s : reachable cd s → bullets_wf s.
Proof.
  intros (arena & evs & ->).
  induction evs as [|ev evs IH] using rev_ind.
  - apply initialize_bullets_wf.
  - rewrite run_snoc. by apply step_bullets_wf.
Qed.

(** X8: in every reachable world each registered bullet has an id below
    the bullet id counter, a position on a map that has arena cell sets,
    and an age of at least 0 and less than [BULLET_LIFE].  Its facing is
    one of U, D, R, L, and then its coordinates are integers; or its
    facing is a name inherited from [Object.prototype], and then its
    coordinates are [NaN] and it has not moved yet. *)
Theorem registered_bullets_well_formed (cd : N) (s : World) (k : nat)
    (b : Bullet) :
  reachable cd s → Map_get k (bullets s) = Some b →
  (k < bulletID s)%nat
  ∧ ((facing b ∈ ["U"; "D"; "R"; "L"]
      ∧ ∃ x y, MapCoord.x (bulletCoord b) = Some x
               ∧ MapCoord.y (bulletCoord b) = Some y)
     ∨ (facing b ∈ Object_prototype
        ∧ MapCoord.x (bulletCoord b) = None
        ∧ MapCoord.y (bulletCoord b) = None
        ∧ duration b = 0))
  ∧ (∃ cellSets, Map_get (MapCoord.mapName (bulletCoord b)) (arenaOfMaps s)
                 = Some cellSets)
  ∧ 0 ≤ duration b < BULLET_LIFE.
Proof.
  intros Hreach Hk. pose proof (reachable_bullets_wf cd s Hreach) as Hwf.
  split; [by apply (bw_fresh s Hwf k b)|].
  split; [|split; [by apply (bw_arena s Hwf k b)|by apply (bw_age s Hwf k b)]].
  destruct (bw_facing s Hwf k b Hk) as (d & Hd & Hplaced).
  apply Facing2Direction_inv in Hd
    as [[Hf ->]|[[Hf ->]|[[Hf ->]|[[Hf ->]|[Hf ->]]]]];
    [left|left|left|left|right; by split];
    (split; [rewrite Hf, !elem_of_cons; auto|]);
    destruct Hplaced as [[x Hx] [y Hy]]; eauto.
Qed.

Lemma registered_bullets_well_formed_witness :
  (0 < bulletID one_shot.1)%nat
  ∧ ∃ cellSets, Map_get "m" (arenaOfMaps lost_shot.1) = Some cellSets.
Proof.
  assert (Hreach : reachable cd_ms one_shot.1).
  { exists arena_m, [(nobody, Attack "p" (at_m 3 3) "U")]. reflexivity. }
  assert (Hlost : reachable cd_ms lost_shot.1).
  { exists arena_m, [(nobody, Attack "p" (at_m 3 3) "constructor")].
    reflexivity. }
  split.
  - destruct (registered_bullets_well_formed cd_ms one_shot.1 0
                {| facing := "U"; bulletCoord := at_m 3 4; duration := 0 |}
                Hreach eq_refl) as [Hlt _].
    exact Hlt.
  - destruct (registered_bullets_well_formed cd_ms lost_shot.1 0
                {| facing := "constructor";
                   bulletCoord := MapCoord.mk "m" None None;
                   duration := 0 |}
                Hlost eq_refl) as (_ & _ & Harena & _).
    exact Harena.
Defined.

Lemma Map_set_fresh {V} (k : nat) (v : V) (m : list (nat * V)) :
  Map_get k m = None → Map_set k v m = m ++ [(k, v)].
Proof.
  induction m as [|[k' v'] m IH]; simpl; [done|].
  destruct (decide (k = k')); [done|]. intros Hk. by rewrite IH.
Qed.

(** X9: bullet ids are not reused: in a reachable world a permitted
    attack draws an id that no registered bullet has, appends its bullet
    at the end of the registry, leaves every other entry as it was and
    advances the counter by one. *)
Theorem attack_draws_fresh_id (cd : N) (player : string) (c : MapCoord.t)
    (f : string) (s s' : World) :
  reachable cd s →
  c2s_attack cd player c f s = (s', Return (VBool true)) →
  Map_get (bulletID s) (bullets s) = None
  ∧ (∃ b, bullets s' = bullets s ++ [(bulletID s, b)])
  ∧ (∀ k, k ≠ bulletID s → Map_get k (bullets s') = Map_get k (bullets s))
  ∧ bulletID s' = S (bulletID s).
Proof.
  intros Hreach Hrun.
  pose proof (reachable_bullets_wf cd s Hreach) as Hwf.
  apply c2s_attack_true_inv in Hrun as (d & _ & _ & ->).
  assert (Hnone : Map_get (bulletID s) (bullets s) = None).
  { destruct (Map_get (bulletID s) (bullets s)) as [b|] eqn:Hk; [|done].
    apply (bw_fresh s Hwf) in Hk. lia. }
  split; [done|]. split; [|split; [|done]].
  - eexists. simpl. by apply Map_set_fresh.
  - intros k Hne. simpl. by apply Map_get_set_ne.
Qed.

Lemma attack_draws_fresh_id_witness :
  Map_get 0%nat (bullets (initialize arena_m)) = None.
Proof.
  assert (Hreach : reachable cd_ms (initialize arena_m)).
  { exists arena_m, []. reflexivity. }
  assert (Hrun : c2s_attack cd_ms "p" (at_m 3 3) "U" (initialize arena_m)
                 = (one_shot.1, Return (VBool true))).
  { vm_compute. reflexivity. }
  destruct (attack_draws_fresh_id cd_ms "p" (at_m 3 3) "U"
              (initialize arena_m) one_shot.1 Hreach Hrun) as [Hnone _].
  exact Hnone.
Defined.

Lemma afterMove_returns env self bid mapName bullet s :
  answers env →
  is_Some (Map_get (MapCoord.mapName (bulletCoord bullet)) (arenaOfMaps s)) →
  (afterMove env self bid mapName bullet s).2 = Return ().
Proof.
  intros Hans [cellSets Harena].
  destruct (Hans (bulletCoord bullet) LAYER_OBSTACLE) as [hit Hhit].
  assert (Hscan : ∀ s0,
    ((emit getPlayers;;
      forEach (hitScan self (MapCoord.y (bulletCoord bullet))) (players env);;
      broadcastBullets mapName) s0).2 = Return ()).
  { intros s0. unfold broadcastBullets. unfoldM.
    pose proof (forEach_hitScan_returns self
                  (MapCoord.y (bulletCoord bullet)) (players env)
                  (add_log getPlayers s0)) as Hret.
    destruct (forEach _ (players env) (add_log getPlayers s0)) as [s1 r].
    simpl in Hret. by subst r. }
  unfold afterMove. unfold mbind at 1. unfold M_bind at 1.
  destruct (Z.le_gt_cases BULLET_LIFE (duration bullet)) as [Hold|Hyoung].
  - by rewrite terminated_old.
  - destruct (insideCellSets cellSets (bulletCoord bullet)) eqn:Hin.
    + rewrite (terminated_inside _ _ _ cellSets) by done. rewrite Hhit.
      destruct hit; [done|apply Hscan].
    + by rewrite (terminated_outside _ _ _ cellSets).
Qed.

(** X10: in a reachable world, with a game map that answers every
    lookup, the callback of a bullet's interval returns normally exactly
    when its bullet is still registered; when the bullet is gone it
    throws a TypeError and leaves the world untouched. *)
Theorem bullet_tick_returns_iff_registered (cd : N) (env : Env)
    (self bid : nat) (mapName : string) (s : World) :
  reachable cd s → answers env →
  ((updateBullet_tick env self bid mapName s).2 = Return ()
   ↔ is_Some (Map_get bid (bullets s)))
  ∧ (Map_get bid (bullets s) = None →
     updateBullet_tick env self bid mapName s = (s, Throw TypeError)).
Proof.
  intros Hreach Hans.
  pose proof (reachable_bullets_wf cd s Hreach) as Hwf.
  assert (Hgone : Map_get bid (bullets s) = None →
            updateBullet_tick env self bid mapName s = (s, Throw TypeError)).
  { intros Hnone. unfold updateBullet_tick. unfoldM. by rewrite Hnone. }
  split; [|done].
  destruct (Map_get bid (bullets s)) as [bullet|] eqn:Hget.
  - split; [by eexists|]. intros _.
    destruct (bw_facing s Hwf bid bullet Hget) as (d & Hd & _).
    rewrite (tick_start _ _ _ _ _ bullet d) by done.
    apply afterMove_returns; [done|].
    by apply (bw_arena s Hwf bid bullet).
  - rewrite Hgone by done. split; [done|]. by intros [? ?].
Qed.

Lemma bullet_tick_returns_iff_registered_witness :
  (updateBullet_tick nobody 2 0 "m" one_shot.1).2 = Return ().
Proof.
  assert (Hreach : reachable cd_ms one_shot.1).
  { exists arena_m, [(nobody, Attack "p" (at_m 3 3) "U")]. reflexivity. }
  assert (Hans : answers nobody).
  { intros c layer. exists false. reflexivity. }
  destruct (bullet_tick_returns_iff_registered cd_ms nobody 2 0 "m"
              one_shot.1 Hreach Hans) as [Hiff _].
  apply Hiff. exists {| facing := "U"; bulletCoord := at_m 3 4;
                        duration := 0 |}. reflexivity.
Defined.

Lemma fireTimer_rooted env id : preserves rooted (fireTimer env id).
Proof.
  unfold fireTimer. frame; try by apply rooted_same.
  destruct (callback t); simpl.
  - done.
  - apply updateBullet_tick_rooted.
  - apply updateMap_tick_rooted.
Qed.

Lemma step_arena cd s ev : arenaOfMaps (step cd s ev) = arenaOfMaps s.
Proof.
  destruct ev as [env [player c f|id|msg]]; unfold step; simpl.
  - destruct (c2s_attack_cases cd player c f s)
      as [H|[H|[_ [(d & Hd & H)|H]]]]; by rewrite H.
  - pose proof (fireTimer_rooted env id s) as [Ha _].
    by destruct (fireTimer env id s) as [s' [?|?]].
  - apply playerUpdateListener_rooted.
Qed.

(** X11: the arena table is never modified: after [initialize] and any
    sequence of attacks, timer firings and player updates it is the
    table the service was started with. *)
Theorem arena_table_is_fixed (cd : N) (arena : list (string * list CellSet))
    (evs : list (Env * Event)) :
  arenaOfMaps (run cd evs (initialize arena)) = arena.
Proof.
  induction evs as [|ev evs IH] using rev_ind.
  - apply initialize_rooted.
  - by rewrite run_snoc, step_arena.
Qed.

(** * Further properties: the cooldown gate *)

Lemma step_release cd s env id t q :
  timers_wf s → (id, t) ∈ timers s → callback t = cooldown_delete q →
  step cd s (env, TimerFires id) = released id q s.
Proof.
  intros Hwf Hin Hcb. unfold step. simpl.
  destruct (wf_held s Hwf _ _ _ Hin Hcb) as [_ Hrep].
  rewrite (fireTimer_release env id s t q); [done| |done|done].
  apply Map_get_NoDup; [apply Hwf|done].
Qed.

Lemma step_held cd s ev : timers_wf s → held s → held (step cd s ev).
Proof.
  intros Hwf Hheld.
  destruct (step_cases cd s ev Hwf)
    as [(id & (Hc & _ & Hts) & Hwhich)
       |[(p & c & f & d & _ & _ & Hs)
        |(id & t & q0 & _ & Hin & Hcb & Hs)]]; intros q Hq.
  - rewrite Hc in Hq. destruct (Hheld q Hq) as (id' & t' & Hin' & Hcb').
    exists id', t'. split; [|done].
    destruct Hwhich as [-> |Hfire]; [done|].
    destruct Hts as [-> | ->]; [done|].
    apply elem_of_Map_delete. split; [done|]. intros ->.
    destruct ev as [env e]. simpl in Hfire. subst e.
    rewrite (step_release cd s env id t' q Hwf Hin' Hcb') in Hc.
    simpl in Hc. assert (Hout : q ∉ cooldown s ∖ {[q]}).
    { rewrite elem_of_difference, elem_of_singleton. tauto. }
    by rewrite Hc in Hout.
  - assert (Hcool : cooldown (step cd s ev) = {[p]} ∪ cooldown s)
      by (by destruct Hs as [-> | ->]).
    rewrite Hcool, elem_of_union, elem_of_singleton in Hq.
    destruct Hq as [-> |Hq].
    + exists (nextTimer s), {| callback := cooldown_delete p; delay := cd;
                               repeating := false |}.
      split; [|reflexivity].
      destruct Hs as [-> | ->]; simpl;
        rewrite ?elem_of_app, !list_elem_of_singleton; auto.
    + destruct (Hheld q Hq) as (id' & t' & Hin' & Hcb').
      exists id', t'. split; [|done].
      destruct Hs as [-> | ->]; simpl; rewrite ?elem_of_app; auto.
  - rewrite Hs in Hq. simpl in Hq.
    rewrite elem_of_difference, elem_of_singleton in Hq.
    destruct Hq as [Hq Hne].
    destruct (Hheld q Hq) as (id' & t' & Hin' & Hcb').
    exists id', t'. split; [|done]. rewrite Hs. simpl.
    apply elem_of_Map_delete. split; [done|]. intros ->.
    pose proof (Map_get_NoDup _ _ _ (wf_nodup s Hwf) Hin) as H1.
    pose proof (Map_get_NoDup _ _ _ (wf_nodup s Hwf) Hin') as H2.
    rewrite H1 in H2. injection H2 as ->. congruence.
Qed.

Lemma reachable_held cd s : reachable cd s → held s.
Proof.
  intros (arena & evs & ->).
  induction evs as [|ev evs IH] using rev_ind.
  - intros q Hq. destruct (initialize_gate arena) as (Hc & _).
    change (run cd [] (initialize arena)) with (initialize arena) in Hq.
    rewrite Hc in Hq. by apply not_elem_of_empty in Hq.
  - rewrite run_snoc. apply step_held; [|done].
    apply run_timers_wf, initialize_timers_wf.
Qed.

(** X12: in every reachable world the cooldown set is exactly the set of
    players with a pending release timeout, and that timeout is a single
    one-shot timer: no player is locked without a release on its way,
    and no release is pending for a player who is free. *)
Theorem cooldown_matches_pending_releases (cd : N) (s : World) (q : string) :
  reachable cd s →
  (q ∈ cooldown s ↔
   ∃ id t, (id, t) ∈ timers s ∧ callback t = cooldown_delete q)
  ∧ ∀ id1 t1 id2 t2,
      (id1, t1) ∈ timers s → (id2, t2) ∈ timers s →
      callback t1 = cooldown_delete q → callback t2 = cooldown_delete q →
      id1 = id2 ∧ t1 = t2 ∧ repeating t1 = false.
Proof.
  intros Hreach.
  pose proof (reachable_timers_wf cd s Hreach) as Hwf.
  pose proof (reachable_held cd s Hreach) as Hheld.
  split; [split|].
  - apply Hheld.
  - intros (id & t & Hin & Hcb). by destruct (wf_held s Hwf id t q).
  - intros id1 t1 id2 t2 H1 H2 Hc1 Hc2.
    assert (id1 = id2) as -> by (by apply (wf_single s Hwf id1 t1 id2 t2 q)).
    pose proof (Map_get_NoDup _ _ _ (wf_nodup s Hwf) H1) as G1.
    pose proof (Map_get_NoDup _ _ _ (wf_nodup s Hwf) H2) as G2.
    rewrite G1 in G2. injection G2 as ->.
    split; [done|]. split; [done|]. by destruct (wf_held s Hwf id2 t2 q).
Qed.

Lemma cooldown_matches_pending_releases_witness :
  "p" ∈ cooldown one_shot.1.
Proof.
  assert (Hreach : reachable cd_ms one_shot.1).
  { exists arena_m, [(nobody, Attack "p" (at_m 3 3) "U")]. reflexivity. }
  destruct (cooldown_matches_pending_releases cd_ms one_shot.1 "p" Hreach)
    as [Hiff _].
  apply Hiff.
  exists 1%nat, {| callback := cooldown_delete "p"; delay := cd_ms;
                   repeating := false |}.
  split; [|reflexivity]. vm_compute. right. left.
Defined.

(** X13: an attack from inside the arena by a player who is free, with a
    facing that names no property of [Facing2Direction] (none of U, D,
    R, L, and no name inherited from [Object.prototype]), throws a
    TypeError after the cooldown is taken: the player is in the cooldown
    set with a release timeout pending and a bullet id is spent, but the
    registry and the log are as before and no bullet interval is
    started. *)
Theorem unknown_facing_costs_the_cooldown (cd : N) (player : string)
    (c : MapCoord.t) (f : string) (s : World) (cellSets : list CellSet) :
  Map_get (MapCoord.mapName c) (arenaOfMaps s) = Some cellSets →
  insideCellSets cellSets c = true →
  player ∉ cooldown s →
  f ∉ ["U"; "D"; "R"; "L"] → f ∉ Object_prototype →
  let r := c2s_attack cd player c f s in
  r.2 = Throw TypeError
  ∧ cooldown r.1 = {[player]} ∪ cooldown s
  ∧ timers r.1
    = timers s ++ [(nextTimer s, {| callback := cooldown_delete player;
                                     delay := cd; repeating := false |})]
  ∧ bullets r.1 = bullets s
  ∧ bulletID r.1 = S (bulletID s)
  ∧ log r.1 = log s.
Proof.
  intros Harena Hin Hfree Hown Hinh r. subst r.
  assert (Hf : Facing2Direction f = None) by by apply Facing2Direction_None.
  by rewrite (c2s_attack_bad_facing cd player c f s cellSets).
Qed.

Lemma unknown_facing_costs_the_cooldown_witness :
  (c2s_attack cd_ms "p" (at_m 3 3) "up" (initialize arena_m)).2
  = Throw TypeError.
Proof.
  apply (unknown_facing_costs_the_cooldown cd_ms "p" (at_m 3 3) "up"
           (initialize arena_m) [ {| cells := [rect 0 0 20 20] |} ]).
  - reflexivity.
  - reflexivity.
  - apply (bool_decide_unpack ("p" ∉ cooldown (initialize arena_m))).
    vm_compute. exact I.
  - apply (bool_decide_unpack ("up" ∉ ["U"; "D"; "R"; "L"])).
    vm_compute. exact I.
  - apply (bool_decide_unpack ("up" ∉ Object_prototype)).
    vm_compute. exact I.
Defined.



(** * Further properties: start and halt of the arena interval *)

Lemma forEach_announce (l : list string) (s : World) :
  forEach announce l s
  = (fold_left (λ s e, add_log e s)
       (flat_map
          (λ mapName,
             [ broadcastCellSetUpdateToAllUser "set" mapName LAYER_BULLET
                 (BulletCells []);
               broadcastCellSetUpdateToAllUser "set" mapName LAYER_FIRE
                 (BulletCells []) ]) l) s,
     Return ()).
Proof.
  revert s. induction l as [|mapName l IH]; intros s; [done|].
  cbn [forEach]. unfold mbind at 1. unfold M_bind at 1.
  change (announce mapName s)
    with (add_log (broadcastCellSetUpdateToAllUser "set" mapName LAYER_FIRE
                     (BulletCells []))
            (add_log (broadcastCellSetUpdateToAllUser "set" mapName
                        LAYER_BULLET (BulletCells [])) s), Return ()).
  cbv beta iota. by rewrite IH.
Qed.

(** X14: [initialize] announces, for every map of the arena table in
    order, an empty bullet layer and an empty fire layer, starts the
    arena interval of [MAP_UPDATE_PERIOD] ms as the only timer, and
    leaves the registry, the cooldown set and the fire set empty and the
    counters at 0. *)
Theorem initialize_starts_clean (arena : list (string * list CellSet)) :
  initialize arena = started arena
  ∧ length (log (initialize arena)) = (2 * length arena)%nat.
Proof.
  assert (Heq : initialize arena = started arena).
  { unfold initialize, setInterval, setTimer. unfoldM.
    rewrite forEach_announce, add_logs. reflexivity. }
  split; [done|]. rewrite Heq. cbn [log started]. unfold Map_keys.
  rewrite <- (length_fmap fst arena).
  generalize (arena.*1). intros l. induction l as [|m l IH]; simpl in *; lia.
Qed.

Global Instance unlit_preorder : PreOrder unlit.
Proof.
  split.
  - by intros s.
  - intros s1 s2 s3 (H1 & H2 & H3) (G1 & G2 & G3). repeat split; congruence.
Qed.

Lemma unlit_same s s' :
  fireCounter s' = fireCounter s → fires s' = fires s → log s' = log s →
  unlit s s'.
Proof. intros ? ? Hl. repeat split; [done|done|]. by rewrite Hl. Qed.

Lemma unlit_add_log e s : fireUpdates [e] = [] → unlit s (add_log e s).
Proof.
  intros He. repeat split. simpl. unfold fireUpdates in *.
  by rewrite omap_app, He, app_nil_r.
Qed.

Ltac unlit_frame :=
  frame; try ((by apply unlit_same) || (by apply unlit_add_log)).

Lemma updateBullet_tick_unlit env self bid mapName :
  preserves unlit (updateBullet_tick env self bid mapName).
Proof. unfold updateBullet_tick. unlit_frame. Qed.

Lemma playerUpdateListener_unlit env msg :
  preserves unlit (playerUpdateListener env msg).
Proof.
  intros s. unfold playerUpdateListener.
  assert (Hpre : preserves unlit (onPlayerUpdate env msg))
    by (unfold onPlayerUpdate; unlit_frame).
  specialize (Hpre s).
  destruct (onPlayerUpdate env msg s) as [s' [?|?]]; simpl in *; [done|].
  etrans; [exact Hpre|]. by apply unlit_add_log.
Qed.

Lemma calm_waning self s s' : calm self s s' → waning s s'.
Proof.
  intros (_ & _ & Hts) id t Hin.
  destruct Hts as [Heq|Heq]; rewrite Heq in Hin; [done|].
  by apply elem_of_Map_delete in Hin as [? _].
Qed.

Lemma fireTimer_found env id s t :
  Map_get id (timers s) = Some t →
  fireTimer env id s
  = ((if repeating t then mret () else clearInterval id);;
     runCallback env id (callback t)) s.
Proof. intros Hget. unfold fireTimer. unfoldM. by rewrite Hget. Qed.

Lemma step_halted cd s ev :
  halted s → halted (step cd s ev) ∧ unlit s (step cd s ev).
Proof.
  intros Hhalt. destruct ev as [env [player c f|id|msg]]; unfold step; simpl.
  - destruct (c2s_attack_cases cd player c f s)
      as [H|[H|[_ [(d & Hd & H)|H]]]]; rewrite H; simpl.
    + by split.
    + by split.
    + split; [|by apply unlit_add_log].
      intros id t. simpl. rewrite !elem_of_app, !list_elem_of_singleton.
      intros [[Hin|[= _ ->]]|[= _ ->]]; [by apply (Hhalt id)|done|done].
    + split; [|by apply unlit_same].
      intros id t. simpl. rewrite elem_of_app, list_elem_of_singleton.
      intros [Hin|[= _ ->]]; [by apply (Hhalt id)|done].
  - assert (Hfire : halted (fireTimer env id s).1
                    ∧ unlit s (fireTimer env id s).1).
    { destruct (Map_get id (timers s)) as [t|] eqn:Hget;
        [|rewrite fireTimer_idle by done; split; [done|reflexivity]].
      rewrite (fireTimer_found env id s t Hget).
      pose proof (Hhalt id t (Map_get_Some_elem _ _ _ Hget)) as Hcb.
      assert (Hpre : preserves (λ s s', unlit s s' ∧ waning s s')
                ((if repeating t then mret () else clearInterval id);;
                 runCallback env id (callback t))).
      { assert (PreOrder (λ s s', unlit s s' ∧ waning s s')).
        { split.
          - intros s0. split; [reflexivity|by intros ? ?].
          - intros s1 s2 s3 [? H12] [? H23].
            split; [by etrans|]. intros ? ? ?. by apply H12, H23. }
        apply preserves_bind; [done| |intros _].
        - destruct (repeating t); frame.
          split; [by apply unlit_same|by apply (calm_waning id), calm_clear].
        - destruct (callback t); simpl.
          + intros s0. split; [by apply unlit_same|by intros ? ?].
          + intros s0. split; [apply updateBullet_tick_unlit|].
            apply (calm_waning id), updateBullet_tick_calm.
          + done. }
      destruct (Hpre s) as [Hu Hts]. split; [|done].
      intros id' t' Hin. apply Hhalt with id'. by apply Hts. }
    destruct (fireTimer env id s) as [s' [?|?]]; simpl in *; [done|].
    destruct Hfire as [Hh Hu]. split; [done|].
    etrans; [exact Hu|]. by apply unlit_add_log.
  - split; [|apply playerUpdateListener_unlit].
    intros id t. rewrite onPlayerUpdate_timers. apply Hhalt.
Qed.

(** X15: once no timer runs the arena tick, none ever will: whatever
    attacks, timer firings and player updates follow, the shrink counter
    and the fire set stay as they are and no fire layer is broadcast
    again. *)
Theorem halted_shrinker_never_resumes (cd : N) (s : World)
    (evs : list (Env * Event)) :
  halted s →
  let s' := run cd evs s in
  halted s'
  ∧ fireCounter s' = fireCounter s
  ∧ fires s' = fires s
  ∧ fireUpdates (log s') = fireUpdates (log s).
Proof.
  intros Hhalt s'. subst s'.
  induction evs as [|ev evs IH] using rev_ind; [done|].
  rewrite run_snoc. destruct IH as (Hh & Hc & Hf & Hl).
  destruct (step_halted cd _ ev Hh) as [Hh' (Hc' & Hf' & Hl')].
  split; [done|]. repeat split; congruence.
Qed.

Lemma halted_shrinker_never_resumes_witness :
  let s := run cd_ms [(nobody, TimerFires 0%nat); (nobody, TimerFires 0%nat)]
             (initialize arena_small) in
  fireCounter
    (run cd_ms [(nobody, Attack "p" (at_m 1 1) "U"); (nobody, TimerFires 0%nat)]
       s)
  = fireCounter s.
Proof.
  intros s.
  assert (Hhalt : halted s).
  { intros id t Hin. vm_compute in Hin. by apply elem_of_nil in Hin. }
  exact (proj1 (proj2 (halted_shrinker_never_resumes cd_ms s
           [(nobody, Attack "p" (at_m 1 1) "U"); (nobody, TimerFires 0%nat)]
           Hhalt))).
Defined.

(** * Further properties: an arena tick that goes on *)

Lemma add_log_fold_app (es1 es2 : list Effect) (s : World) :
  fold_left (λ s e, add_log e s) (es1 ++ es2) s
  = fold_left (λ s e, add_log e s) es2
      (fold_left (λ s e, add_log e s) es1 s).
Proof. apply fold_left_app. Qed.

Lemma scanLog_cons env p ps :
  scanLog env (p :: ps) = scanLog env [p] ++ scanLog env ps.
Proof. unfold scanLog. simpl. by rewrite app_nil_r. Qed.

Lemma forEach_fireScan env ps s :
  answers env →
  forEach (fireScan env) ps s
  = (fold_left (λ s e, add_log e s) (scanLog env ps) s, Return ()).
Proof.
  intros Hans. revert s. induction ps as [|p ps IH]; intros s; [done|].
  cbn [forEach]. unfold mbind at 1. unfold M_bind at 1.
  assert (Hone : fireScan env p s
                 = (fold_left (λ s e, add_log e s) (scanLog env [p]) s,
                    Return ())).
  { unfold fireScan, askCell, teleport, scanLog. unfoldM. simpl.
    destruct (Hans p.2 LAYER_FIRE) as [b ->]. by destruct b. }
  rewrite Hone. cbv beta iota. rewrite IH.
  rewrite (scanLog_cons env p ps).
  by rewrite add_log_fold_app.
Qed.

Lemma updateMap_loop_continues env self s mapName cellSets rest :
  Map_get mapName (arenaOfMaps s) = Some cellSets →
  (updateEdge (fires s) cellSets (fireCounter s)).2 = true →
  answers env →
  updateMap_loop env self (mapName :: rest) s
  = updateMap_loop env self rest
      (fold_left (λ s e, add_log e s)
         (broadcastCellSetUpdateToAllUser "update" mapName LAYER_FIRE
            (FireCells (updateEdge (fires s) cellSets (fireCounter s)).1)
          :: getPlayers :: scanLog env (players env))
         (set_fires (updateEdge (fires s) cellSets (fireCounter s)).1 s)).
Proof.
  intros Harena Hgo Hans. cbn [updateMap_loop]. unfoldM.
  rewrite Harena, Hgo. cbn [negb fst snd set_fires fires].
  by rewrite forEach_fireScan.
Qed.

Lemma observe_fold {A} (f : list Effect → list A) (es : list Effect)
    (s : World) :
  (∀ l1 l2, f (l1 ++ l2) = f l1 ++ f l2) →
  f (log (fold_left (λ s e, add_log e s) es s)) = f (log s) ++ f es.
Proof. intros Happ. by rewrite add_logs, <- Happ. Qed.

Lemma fireUpdates_scanLog env ps : fireUpdates (scanLog env ps) = [].
Proof.
  induction ps as [|p ps IH]; [done|].
  rewrite (scanLog_cons env p ps).
  unfold fireUpdates in *. rewrite omap_app, IH, app_nil_r.
  unfold scanLog. simpl.
  by destruct (cellOccupied env (VCoord p.2) LAYER_FIRE) as [[|]|].
Qed.

Lemma lookups_scanLog env ps :
  lookups (scanLog env ps) = (λ p, (VCoord p.2, LAYER_FIRE)) <$> ps.
Proof.
  induction ps as [|p ps IH]; [done|].
  rewrite (scanLog_cons env p ps).
  unfold lookups in *. rewrite omap_app, IH.
  unfold scanLog. simpl.
  by destruct (cellOccupied env (VCoord p.2) LAYER_FIRE) as [[|]|].
Qed.

Lemma relocations_scanLog env ps :
  relocations (scanLog env ps)
  = (λ p, (p.1, MapCoord.mk (MapCoord.mapName p.2) (Some 1) (Some 1), true))
      <$> filter (λ p, cellOccupied env (VCoord p.2) LAYER_FIRE = Some true)
                 ps.
Proof.
  induction ps as [|p ps IH]; [done|].
  rewrite (scanLog_cons env p ps).
  unfold relocations in *. rewrite omap_app, IH, filter_cons.
  unfold scanLog. simpl.
  destruct (cellOccupied env (VCoord p.2) LAYER_FIRE) as [[|]|] eqn:Hc.
  - by rewrite decide_True.
  - by rewrite decide_False.
  - by rewrite decide_False.
Qed.

Lemma updateEdge_from (fires : list Fire.t) (cellSets : list CellSet)
    (k : Z) :
  updateEdge fires cellSets k
  = (fires ++ mapStrips k cellSets,
     negb (forallb (consumed k) (flat_map cells cellSets))).
Proof.
  rewrite <- (updateEdge_flag fires). unfold updateEdge.
  by rewrite updateEdge_loop_fires.
Qed.

(** X16: the fire set is cleared once per tick, not once per map: in an
    arena tick over two maps that both still grow, the fire layer
    broadcast for the second map carries the strips of the first map's
    rectangles followed by its own; the interval stays pending. *)
Theorem fire_set_accumulates_across_maps (env : Env) (self : nat)
    (s : World) (A B : string) (csA csB : list CellSet) :
  arenaOfMaps s = [(A, csA); (B, csB)] → A ≠ B → answers env →
  forallb (consumed (fireCounter s + 1)) (flat_map cells csA) = false →
  forallb (consumed (fireCounter s + 1)) (flat_map cells csB) = false →
  let k := fireCounter s + 1 in
  let r := updateMap_tick env self s in
  r.2 = Return ()
  ∧ fireUpdates (log r.1)
    = fireUpdates (log s)
      ++ [(A, mapStrips k csA); (B, mapStrips k csA ++ mapStrips k csB)]
  ∧ fires r.1 = mapStrips k csA ++ mapStrips k csB
  ∧ fireCounter r.1 = k
  ∧ timers r.1 = timers s.
Proof.
  intros Harena Hne Hans HA HB k r. subst k.
  set (k := fireCounter s + 1) in *.
  set (s0 := set_fires [] (set_fireCounter k s)).
  assert (Hr : r = updateMap_loop env self [A; B] s0).
  { subst r s0. unfold updateMap_tick. unfoldM.
    cbn [arenaOfMaps set_fires set_fireCounter]. by rewrite Harena. }
  assert (HgetA : Map_get A (arenaOfMaps s0) = Some csA).
  { subst s0. cbn [arenaOfMaps set_fires set_fireCounter]. rewrite Harena.
    simpl. by rewrite decide_True. }
  assert (HgoA : (updateEdge (fires s0) csA (fireCounter s0)).2 = true).
  { rewrite updateEdge_from. subst s0.
    cbn [snd fireCounter set_fires set_fireCounter]. by rewrite HA. }
  rewrite (updateMap_loop_continues env self s0 A csA [B] HgetA HgoA Hans)
    in Hr.
  rewrite add_logs in Hr.
  match type of Hr with _ = updateMap_loop _ _ _ ?w => set (s1 := w) in * end.
  assert (HgetB : Map_get B (arenaOfMaps s1) = Some csB).
  { subst s1 s0. cbn [arenaOfMaps set_fires set_fireCounter]. rewrite Harena.
    simpl. rewrite decide_False by done. by rewrite decide_True. }
  assert (HgoB : (updateEdge (fires s1) csB (fireCounter s1)).2 = true).
  { rewrite updateEdge_from. subst s1 s0.
    cbn [snd fireCounter set_fires set_fireCounter]. by rewrite HB. }
  rewrite (updateMap_loop_continues env self s1 B csB [] HgetB HgoB Hans)
    in Hr.
  cbn [updateMap_loop] in Hr. rewrite Hr. clear Hr.
  rewrite add_logs. subst s1 s0. rewrite !updateEdge_from.
  cbn [fst snd fires fireCounter timers log set_fires set_fireCounter mret
       M_ret].
  split; [done|]. split; [|done].
  unfold fireUpdates. rewrite !omap_app. fold fireUpdates. simpl.
  rewrite !fireUpdates_scanLog. by rewrite <- app_assoc.
Qed.

Lemma fire_set_accumulates_across_maps_witness :
  let r := updateMap_tick nobody 0 (initialize [("A", [ {| cells := [rect 0 0 8 8] |} ]);
                                               ("B", [ {| cells := [rect 0 0 6 6] |} ])]) in
  fires r.1 = edgeStrips 1 (rect 0 0 8 8) ++ edgeStrips 1 (rect 0 0 6 6).
Proof.
  intros r.
  destruct (fire_set_accumulates_across_maps nobody 0
              (initialize [("A", [ {| cells := [rect 0 0 8 8] |} ]);
                           ("B", [ {| cells := [rect 0 0 6 6] |} ])])
              "A" "B" [ {| cells := [rect 0 0 8 8] |} ]
              [ {| cells := [rect 0 0 6 6] |} ])
    as (_ & _ & Hf & _).
  - reflexivity.
  - discriminate.
  - intros c layer. exists false. reflexivity.
  - reflexivity.
  - reflexivity.
  - exact Hf.
Defined.

(** X17: an arena tick over a single map that still grows asks the game
    map about the fire layer for every tracked player, in order, and
    relocates to (1,1) on the player's own map exactly the players for
    whom the answer is yes; the interval stays pending. *)
Theorem arena_tick_relocates_players_on_fire (env : Env) (self : nat)
    (s : World) (A : string) (csA : list CellSet) :
  arenaOfMaps s = [(A, csA)] → answers env →
  forallb (consumed (fireCounter s + 1)) (flat_map cells csA) = false →
  let r := updateMap_tick env self s in
  r.2 = Return ()
  ∧ timers r.1 = timers s
  ∧ lookups (log r.1)
    = lookups (log s) ++ ((λ p, (VCoord p.2, LAYER_FIRE)) <$> players env)
  ∧ relocations (log r.1)
    = relocations (log s)
      ++ ((λ p, (p.1, MapCoord.mk (MapCoord.mapName p.2) (Some 1) (Some 1), true))
            <$> filter (λ p, cellOccupied env (VCoord p.2) LAYER_FIRE
                             = Some true)
                       (players env)).
Proof.
  intros Harena Hans HA r.
  set (s0 := set_fires [] (set_fireCounter (fireCounter s + 1) s)).
  assert (Hr : r = updateMap_loop env self [A] s0).
  { subst r s0. unfold updateMap_tick. unfoldM.
    cbn [arenaOfMaps set_fires set_fireCounter]. by rewrite Harena. }
  assert (HgetA : Map_get A (arenaOfMaps s0) = Some csA).
  { subst s0. cbn [arenaOfMaps set_fires set_fireCounter]. rewrite Harena.
    simpl. by rewrite decide_True. }
  assert (HgoA : (updateEdge (fires s0) csA (fireCounter s0)).2 = true).
  { rewrite updateEdge_from. subst s0.
    cbn [snd fireCounter set_fires set_fireCounter]. by rewrite HA. }
  rewrite (updateMap_loop_continues env self s0 A csA [] HgetA HgoA Hans)
    in Hr.
  cbn [updateMap_loop] in Hr. rewrite Hr. clear Hr.
  rewrite add_logs. subst s0.
  cbn [fst snd timers log set_fires set_fireCounter mret M_ret].
  split; [done|]. split; [done|]. split.
  - unfold lookups. rewrite omap_app. fold lookups. simpl.
    by rewrite lookups_scanLog.
  - unfold relocations. rewrite omap_app. fold relocations. simpl.
    by rewrite relocations_scanLog.
Qed.

Lemma arena_tick_relocates_players_on_fire_witness :
  relocations (log (updateMap_tick burning 0 (initialize arena_m)).1)
  = [("v", at_m 1 1, true)].
Proof.
  destruct (arena_tick_relocates_players_on_fire burning 0
              (initialize arena_m) "m" [ {| cells := [rect 0 0 20 20] |} ])
    as (_ & _ & _ & Hrel).
  - reflexivity.
  - intros c layer. destruct layer; by eexists.
  - reflexivity.
  - rewrite Hrel. reflexivity.
Defined.

(** * Further properties: player updates and collisions *)

Global Instance told_preorder : PreOrder told.
Proof.
  split.
  - intros s. by exists [].
  - intros s1 s2 s3 [es1 ->] [es2 ->]. exists (es1 ++ es2).
    by rewrite fold_left_app.
Qed.

Lemma told_add_log e s : told s (add_log e s).
Proof. by exists [e]. Qed.

Lemma onPlayerUpdate_told env msg : preserves told (onPlayerUpdate env msg).
Proof. unfold onPlayerUpdate. frame; apply told_add_log. Qed.

(** X18: a player update, well formed or not, changes nothing but the
    log: registry, cooldown set, timers, fire set and counters are as
    before.  A player id that is not a string is answered with one
    warning and nothing else; a coordinate that is the string
    ['undefined'] ends the handler without any call. *)
Theorem player_update_only_talks (env : Env) (msg : PlayerSyncMessage)
    (s : World) :
  let s' := (playerUpdateListener env msg s).1 in
  (∃ es, s' = mkWorld (arenaOfMaps s) (bullets s) (bulletID s) (fires s)
                (cooldown s) (fireCounter s) (timers s) (nextTimer s)
                (log s ++ es))
  ∧ (is_string (msg_playerID msg) = false →
     log s' = log s ++ [console_warn
                "Invalid PlayerSyncMessage with non-string msg.playerID"])
  ∧ (is_string (msg_playerID msg) = true →
     msg_mapCoord msg = VStr "undefined" → s' = s).
Proof.
  intros s'. split; [|split].
  - assert (Htold : told s s').
    { subst s'. unfold playerUpdateListener.
      pose proof (onPlayerUpdate_told env msg s) as Ht.
      destruct (onPlayerUpdate env msg s) as [s1 [?|?]]; simpl in *; [done|].
      etrans; [exact Ht|apply told_add_log]. }
    destruct Htold as [es ->]. exists es. apply add_logs.
  - intros Hid. subst s'. unfold playerUpdateListener.
    by rewrite onPlayerUpdate_non_string.
  - intros Hid Hc. subst s'. unfold playerUpdateListener, onPlayerUpdate.
    rewrite Hc. by destruct (msg_playerID msg).
Qed.

Lemma js_eq_ne (a b : num) : a ≠ b → js_eq a b = false.
Proof.
  destruct a as [a|], b as [b|]; simpl; try done.
  intros Hne. apply Z.eqb_neq. congruence.
Qed.

Lemma firstHit_other_row player tickY bs :
  MapCoord.y player ≠ tickY → firstHit player tickY bs = None.
Proof.
  intros Hy. induction bs as [|[k b] bs IH]; simpl; [done|].
  rewrite (js_eq_ne _ _ Hy), andb_false_r. exact IH.
Qed.

Lemma firstHit_key player tickY bs hit :
  firstHit player tickY bs = Some hit → is_Some (Map_get hit bs).
Proof.
  induction bs as [|[k b] bs IH]; simpl; [done|].
  destruct (_ && _).
  - intros [= ->]. rewrite decide_True by done. by eexists.
  - intros Hhit. destruct (decide (hit = k)); [by eexists|auto].
Qed.

Lemma forEach_hitScan_skip self tickY pre s :
  (∀ q, q ∈ pre → MapCoord.y q.2 ≠ tickY) →
  forEach (hitScan self tickY) pre s = (s, Return ()).
Proof.
  revert s. induction pre as [|q pre IH]; intros s Hall; [done|].
  cbn [forEach]. unfold mbind at 1. unfold M_bind at 1.
  assert (Hq : hitScan self tickY q s = (s, Return ())).
  { unfold hitScan. unfoldM.
    rewrite firstHit_other_row; [done|]. apply Hall. left. }
  rewrite Hq. apply IH. intros q' Hin. apply Hall. by right.
Qed.

Lemma forEach_app {A} (body : A → M unit) (l1 l2 : list A) (s : World) :
  forEach body (l1 ++ l2) s
  = match forEach body l1 s with
    | (s1, Return _) => forEach body l2 s1
    | (s1, Throw e) => (s1, Throw e)
    end.
Proof.
  revert s. induction l1 as [|a l1 IH]; intros s; [done|].
  cbn [app forEach]. unfold mbind, M_bind.
  destruct (body a s) as [s1 [[]|e]]; [apply IH|done].
Qed.

Lemma hitScan_calm self tickY p : preserves (calm self) (hitScan self tickY p).
Proof. frame; try ((by apply calm_same) || apply calm_clear). Qed.

(** X19: on a tick whose bullet survives the three tests, the first
    tracked player in iteration order who stands in the row of the moved
    bullet, if that player stands on the bullet's cell, is relocated to
    (1,1) on the player's own map; the running interval is cleared and a
    registered bullet leaves the registry. *)
Theorem first_player_on_bullet_cell_is_relocated (env : Env)
    (self bid : nat) (mapName : string) (s : World) (bullet : Bullet)
    (d : Direction) (cellSets : list CellSet)
    (pre post : list (string * MapCoord.t)) (pid : string)
    (pc : MapCoord.t) :
  Map_get bid (bullets s) = Some bullet →
  Facing2Direction (facing bullet) = Some d →
  let moved := advance bullet d in
  duration moved < BULLET_LIFE →
  Map_get (MapCoord.mapName (bulletCoord moved)) (arenaOfMaps s)
  = Some cellSets →
  insideCellSets cellSets (bulletCoord moved) = true →
  cellOccupied env (VCoord (bulletCoord moved)) LAYER_OBSTACLE = Some false →
  players env = pre ++ (pid, pc) :: post →
  (∀ q, q ∈ pre → MapCoord.y q.2 ≠ MapCoord.y (bulletCoord moved)) →
  MapCoord.x pc = MapCoord.x (bulletCoord moved) →
  MapCoord.y pc = MapCoord.y (bulletCoord moved) →
  let s' := (updateBullet_tick env self bid mapName s).1 in
  (pid, MapCoord.mk (MapCoord.mapName pc) (Some 1) (Some 1), true)
  ∈ relocations (log s')
  ∧ Map_get self (timers s') = None
  ∧ ∃ hit, is_Some (Map_get hit (bullets s))
           ∧ Map_get hit (bullets s') = None.
Proof.
  intros Hget Hd moved Hyoung Harena Hin Hocc Hps Hpre Hx Hy s'.
  set (tickY := MapCoord.y (bulletCoord moved)) in *.
  set (s0 := set_bullets (Map_set bid moved) s).
  set (sA := add_log getPlayers
               (add_log (getCell (VCoord (bulletCoord moved)) LAYER_OBSTACLE)
                  s0)).
  assert (HgetA : Map_get bid (bullets sA) = Some moved)
    by apply Map_get_set_eq.
  destruct (insideCellSets_numeric _ _ Hin) as (bx & by_ & Hbx & Hby).
  assert (Hx' : js_eq (MapCoord.x pc) (MapCoord.x (bulletCoord moved)) = true).
  { apply js_eq_true. exists bx. by rewrite Hx. }
  assert (Hy' : js_eq (MapCoord.y pc) tickY = true).
  { apply js_eq_true. exists by_. subst tickY. by rewrite Hy. }
  destruct (hitScan_relocates self tickY pid pc sA bid moved HgetA Hx' Hy')
    as (hit & Hhit & Hscan).
  set (target := MapCoord.mk (MapCoord.mapName pc) (Some 1) (Some 1)) in *.
  set (sB := set_bullets (Map_delete hit)
               (set_timers (Map_delete self (timers sA)) (nextTimer sA)
                  (add_log (helper_teleport pid target true) sA))) in *.
  pose proof (forEach_hitScan_returns self tickY post sB) as Hret.
  pose proof (preserves_forEach shrunk (hitScan self tickY) post
                (hitScan_shrunk self tickY) sB) as Hshr.
  pose proof (preserves_forEach logged (hitScan self tickY) post
                (hitScan_logged self tickY) sB) as [rest Hlog].
  pose proof (preserves_forEach (calm self) (hitScan self tickY) post
                (hitScan_calm self tickY) sB) as (_ & _ & Hts).
  assert (Hall : forEach (hitScan self tickY) (players env) sA
                 = forEach (hitScan self tickY) post sB).
  { rewrite Hps, forEach_app, forEach_hitScan_skip by done.
    cbn [forEach]. unfold mbind at 1. unfold M_bind at 1. by rewrite Hscan. }
  assert (Hs' : s' = (broadcastBullets mapName
                        (forEach (hitScan self tickY) post sB).1).1).
  { subst s'. rewrite (tick_start _ _ _ _ _ bullet d) by done.
    fold moved. fold s0.
    unfold afterMove. unfold mbind at 1. unfold M_bind at 1.
    rewrite (terminated_inside _ _ _ cellSets) by done. rewrite Hocc.
    unfold emit at 1. unfold mbind at 1 2. unfold M_bind at 1 2.
    unfold modify at 1. fold tickY. fold sA. rewrite Hall.
    destruct (forEach (hitScan self tickY) post sB) as [sC r].
    simpl in Hret. by subst r. }
  destruct (forEach (hitScan self tickY) post sB) as [sC r].
  simpl in Hret, Hshr, Hlog, Hts, Hs'. subst r.
  unfold broadcastBullets in Hs'. unfold mbind, M_bind, emit, gets, modify in Hs'.
  simpl in Hs'. rewrite Hs'. cbn [log timers bullets add_log].
  split; [|split].
  - apply list_elem_of_omap.
    exists (helper_teleport pid target true).
    split; [|done]. rewrite Hlog. subst sB.
    cbn [log set_bullets set_timers add_log].
    rewrite !elem_of_app, !list_elem_of_singleton. auto 10.
  - destruct Hts as [-> | ->].
    + subst sB. cbn [timers set_bullets set_timers]. apply Map_get_delete_eq.
    + apply Map_get_delete_eq.
  - exists hit. split.
    + apply firstHit_key in Hhit. subst sA s0.
      cbn [bullets add_log set_bullets] in Hhit.
      destruct (decide (bid = hit)) as [<-|Hne]; [by eexists|].
      by rewrite Map_get_set_ne in Hhit.
    + destruct (Hshr hit) as [Hk|Hk]; [done|]. rewrite Hk. subst sB.
      cbn [bullets set_bullets]. apply Map_get_delete_eq.
Qed.

Lemma first_player_on_bullet_cell_is_relocated_witness :
  ("v", at_m 1 1, true)
  ∈ relocations (log (updateBullet_tick victim 4 1 "m" two_bullets).1).
Proof.
  destruct (first_player_on_bullet_cell_is_relocated victim 4 1 "m"
              two_bullets
              {| facing := "U"; bulletCoord := at_m 5 3; duration := 0 |}
              (Array 0 1) [ {| cells := [rect 0 0 20 20] |} ] [] [] "v"
              (at_m 5 4)) as (Hrel & _).
  - reflexivity.
  - reflexivity.
  - vm_compute. reflexivity.
  - reflexivity.
  - reflexivity.
  - reflexivity.
  - reflexivity.
  - intros q Hq. by apply elem_of_nil in Hq.
  - reflexivity.
  - reflexivity.
  - exact Hrel.
Defined.

(** * Further properties: frames and shapes *)

Global Instance keeps_preorder {A} (f : World → A) : PreOrder (keeps f).
Proof.
  split.
  - by intros s.
  - intros s1 s2 s3 H1 H2. unfold keeps in *. congruence.
Qed.

Lemma updateMap_loop_keeps {A} (f : World → A) env self mapNames :
  (∀ e s, f (add_log e s) = f s) →
  (∀ fs s, f (set_fires fs s) = f s) →
  (∀ ts n s, f (set_timers ts n s) = f s) →
  preserves (keeps f) (updateMap_loop env self mapNames).
Proof.
  intros Hlog Hfires Htimers.
  induction mapNames as [|mapName rest IH]; simpl.
  - frame.
  - frame; try ((by apply Hlog) || (by apply Hfires) || (by apply Htimers)
                || done || apply IH).
Qed.

(** X20: the callback of a bullet's interval touches the registry, the
    log and its own timer only: the cooldown set, the fire set, both
    counters, the next timer handle and the arena table are as before,
    and of the pending timers at most its own handle is gone. *)
Theorem bullet_tick_frame (env : Env) (self bid : nat) (mapName : string)
    (s : World) :
  let s' := (updateBullet_tick env self bid mapName s).1 in
  cooldown s' = cooldown s
  ∧ fires s' = fires s
  ∧ fireCounter s' = fireCounter s
  ∧ bulletID s' = bulletID s
  ∧ nextTimer s' = nextTimer s
  ∧ arenaOfMaps s' = arenaOfMaps s
  ∧ (timers s' = timers s ∨ timers s' = Map_delete self (timers s)).
Proof.
  intros s'. subst s'.
  destruct (updateBullet_tick_calm env self bid mapName s) as (Hc & Hn & Ht).
  destruct (updateBullet_tick_rooted env self bid mapName s) as (Ha & Hb).
  destruct (updateBullet_tick_unlit env self bid mapName s) as (Hk & Hf & _).
  done.
Qed.

(** X21: the arena tick adds exactly one to the shrink counter, also on
    the tick on which it clears its interval; it leaves the registry,
    the cooldown set, the bullet id counter and the arena table as they
    are, and of the pending timers at most its own handle is gone. *)
Theorem arena_tick_frame (env : Env) (self : nat) (s : World) :
  let s' := (updateMap_tick env self s).1 in
  fireCounter s' = fireCounter s + 1
  ∧ bullets s' = bullets s
  ∧ cooldown s' = cooldown s
  ∧ bulletID s' = bulletID s
  ∧ nextTimer s' = nextTimer s
  ∧ arenaOfMaps s' = arenaOfMaps s
  ∧ (timers s' = timers s ∨ timers s' = Map_delete self (timers s)).
Proof.
  intros s'. subst s'.
  destruct (updateMap_tick_calm env self s) as (Hc & Hn & Ht).
  destruct (updateMap_tick_rooted env self s) as (Ha & Hb).
  assert (Hk : fireCounter (updateMap_tick env self s).1 = fireCounter s + 1).
  { unfold updateMap_tick. unfoldM.
    set (s0 := set_fires [] (set_fireCounter (fireCounter s + 1) s)).
    by rewrite (updateMap_loop_keeps fireCounter env self _
                  ltac:(done) ltac:(done) ltac:(done) s0). }
  assert (Hbs : bullets (updateMap_tick env self s).1 = bullets s).
  { unfold updateMap_tick. unfoldM.
    set (s0 := set_fires [] (set_fireCounter (fireCounter s + 1) s)).
    by rewrite (updateMap_loop_keeps bullets env self _
                  ltac:(done) ltac:(done) ltac:(done) s0). }
  done.
Qed.

Lemma afterMove_ends_with_broadcast env self bid mapName bullet s :
  (afterMove env self bid mapName bullet s).2 = Return () →
  last (log (afterMove env self bid mapName bullet s).1)
  = Some (broadcastCellSetUpdateToAllUser "update" mapName LAYER_BULLET
            (BulletCells
               ((λ kv, bulletCoord kv.2)
                  <$> bullets (afterMove env self bid mapName bullet s).1))).
Proof.
  unfold afterMove, clearInterval, broadcastBullets. unfoldM.
  destruct (terminated env bullet s) as [s1 [[|]|e]]; [| |done].
  - simpl. intros _. apply last_snoc.
  - destruct (forEach _ (players env) _) as [s2 [[]|e]]; [|done].
    simpl. intros _. apply last_snoc.
Qed.

(** X22: a callback of a bullet's interval that returns has, as its last
    call, broadcast the bullet layer of the attack's map with the
    coordinates of all bullets then registered, on whatever map they
    are. *)
Theorem returning_tick_ends_with_broadcast (env : Env) (self bid : nat)
    (mapName : string) (s : World) :
  (updateBullet_tick env self bid mapName s).2 = Return () →
  last (log (updateBullet_tick env self bid mapName s).1)
  = Some (broadcastCellSetUpdateToAllUser "update" mapName LAYER_BULLET
            (BulletCells
               ((λ kv, bulletCoord kv.2)
                  <$> bullets (updateBullet_tick env self bid mapName s).1))).
Proof.
  destruct (Map_get bid (bullets s)) as [bullet|] eqn:Hget.
  2: { unfold updateBullet_tick. unfoldM. by rewrite Hget. }
  destruct (Facing2Direction (facing bullet)) as [d|] eqn:Hd.
  2: { unfold updateBullet_tick. unfoldM. by rewrite Hget, Hd. }
  rewrite (tick_start _ _ _ _ _ bullet d) by done.
  apply afterMove_ends_with_broadcast.
Qed.

Lemma returning_tick_ends_with_broadcast_witness :
  last (log (updateBullet_tick nobody 2 0 "m" one_shot.1).1)
  = Some (broadcastCellSetUpdateToAllUser "update" "m" LAYER_BULLET
            (BulletCells [at_m 3 5])).
Proof.
  apply (returning_tick_ends_with_broadcast nobody 2 0 "m" one_shot.1).
  reflexivity.
Defined.

Lemma step_shaped cd s ev :
  timers_wf s →
  (∀ id t, (id, t) ∈ timers s →
           shaped cd t ∧ (callback t = updateMap → id = 0%nat)) →
  ∀ id t, (id, t) ∈ timers (step cd s ev) →
          shaped cd t ∧ (callback t = updateMap → id = 0%nat).
Proof.
  intros Hwf Hall.
  destruct (step_cases cd s ev Hwf)
    as [(id0 & Hcalm & _)
       |[(p & c & f & d & _ & _ & Hs)
        |(id0 & t0 & q0 & _ & _ & _ & Hs)]]; intros id t Hin.
  - apply Hall. by apply (calm_waning id0 s _ Hcalm).
  - destruct Hs as [Hs|Hs]; rewrite Hs in Hin; simpl in Hin;
      rewrite ?elem_of_app, ?list_elem_of_singleton in Hin.
    + destruct Hin as [[Hin|[= -> ->]]|[= -> ->]]; [by apply Hall|done|done].
    + destruct Hin as [Hin|[= -> ->]]; [by apply Hall|done].
  - rewrite Hs in Hin. simpl in Hin.
    apply elem_of_Map_delete in Hin as [Hin _]. by apply Hall.
Qed.

(** X23: in every reachable world each pending timer is of one of three
    kinds: the arena interval of [MAP_UPDATE_PERIOD] ms, which only ever
    has the first handle; a one-shot cooldown release of
    [BULLET_COOLDOWN] ms; or a bullet interval of [BULLET_SPEED] ms.
    Handles are below the next handle and no two timers share one. *)
Theorem pending_timers_are_shaped (cd : N) (s : World) (id : nat)
    (t : Timer) :
  reachable cd s → (id, t) ∈ timers s →
  shaped cd t
  ∧ (callback t = updateMap → id = 0%nat)
  ∧ (id < nextTimer s)%nat
  ∧ Map_get id (timers s) = Some t.
Proof.
  intros Hreach Hin.
  pose proof (reachable_timers_wf cd s Hreach) as Hwf.
  assert (Hall : ∀ id t, (id, t) ∈ timers s →
                   shaped cd t ∧ (callback t = updateMap → id = 0%nat)).
  { clear id t Hin Hwf. destruct Hreach as (arena & evs & ->).
    induction evs as [|ev evs IH] using rev_ind.
    - intros id t Hin.
      change (run cd [] (initialize arena)) with (initialize arena) in Hin.
      destruct (initialize_gate arena) as (_ & _ & Ht). rewrite Ht in Hin.
      apply list_elem_of_singleton in Hin. by injection Hin as -> ->.
    - rewrite run_snoc. apply step_shaped; [|done].
      apply run_timers_wf, initialize_timers_wf. }
  destruct (Hall id t Hin) as [Hshape Hzero].
  split; [done|]. split; [done|]. split; [by apply (wf_below s Hwf id t)|].
  apply Map_get_NoDup; [apply Hwf|done].
Qed.

Lemma pending_timers_are_shaped_witness :
  shaped cd_ms {| callback := cooldown_delete "p"; delay := cd_ms;
                  repeating := false |}.
Proof.
  assert (Hreach : reachable cd_ms one_shot.1).
  { exists arena_m, [(nobody, Attack "p" (at_m 3 3) "U")]. reflexivity. }
  destruct (pending_timers_are_shaped cd_ms one_shot.1 1
              {| callback := cooldown_delete "p"; delay := cd_ms;
                 repeating := false |} Hreach) as [Hshape _].
  - vm_compute. right. left.
  - exact Hshape.
Defined.
